(** * intgemm, AVX512 backend (avx512_gemm.h): a shallow embedding

    The 512-bit backend quantizes floats to narrow signed integers, packs
    B into tiles and multiplies with 8-bit or 16-bit lanes.  This file
    embeds the functions of [avx512_gemm.h] and states their properties.

    Conventions.
    - A vector register is the list of its lanes, lowest lane first:
      64 lanes for an 8-bit view, 32 for 16-bit, 16 for 32-bit and for
      floats.  A lane holds the signed value of its bits as a [Z]; every
      instruction writes its own wrap-around or saturation out.
    - A [const int8_t *] buffer is the list of its bytes; a pointer into
      it is an offset (a [nat]).  Reading outside the buffer is undefined
      behaviour in C and is the outcome [OutOfBounds] here.
    - [Index] (declared in types.h, which is not part of this file) is an
      unsigned count; it is modelled by [nat], that is for dimensions
      whose products fit the type.
    - The callback handed to [Multiply] is an effect: the model records
      the calls, in order, as a list.
    - [assert] is modelled as compiled in: a failing assertion is the
      outcome [AssertionFailed]. *)

From Stdlib Require Import ZArith QArith Qabs Qpower List Lia Bool Arith PeanoNat.
From Stdlib Require Import Floats.SpecFloat.
Import ListNotations.
Local Open Scope Z_scope.

(** ** Outcomes of a run *)

Inductive outcome (X : Type) : Type :=
| Done (x : X)
| AssertionFailed
| OutOfBounds
| OutOfFuel.

Arguments Done {X} x.
Arguments AssertionFailed {X}.
Arguments OutOfBounds {X}.
Arguments OutOfFuel {X}.

Definition bind {X Y : Type} (m : outcome X) (k : X -> outcome Y) : outcome Y :=
  match m with
  | Done x => k x
  | AssertionFailed => AssertionFailed
  | OutOfBounds => OutOfBounds
  | OutOfFuel => OutOfFuel
  end.

Notation "x <- m ;; k" := (bind m (fun x => k))
  (at level 61, m at next level, right associativity).

Definition assert (b : bool) : outcome unit :=
  if b then Done tt else AssertionFailed.

(** ** Lanes *)

Module Lane.

(** Signed reading of the low 8, 16 and 32 bits of a value. *)
Definition wrap8 (x : Z) : Z := (x + 128) mod 256 - 128.
Definition wrap16 (x : Z) : Z := (x + 32768) mod 65536 - 32768.
Definition wrap32 (x : Z) : Z := (x + 2147483648) mod 4294967296 - 2147483648.

(** Unsigned reading of an 8-bit lane. *)
Definition as_u8 (x : Z) : Z := x mod 256.

(** Signed saturation. *)
Definition sat8 (x : Z) : Z := Z.max (-128) (Z.min 127 x).
Definition sat16 (x : Z) : Z := Z.max (-32768) (Z.min 32767 x).

(** The range the 8-bit quantizers promise: an int8 other than -128. *)
Definition in127 (x : Z) : Prop := -127 <= x <= 127.

End Lane.
Import Lane.

(** ** Lane-wise helpers *)

Fixpoint map2 {X Y W : Type} (f : X -> Y -> W) (a : list X) (b : list Y) : list W :=
  match a, b with
  | x :: a', y :: b' => f x y :: map2 f a' b'
  | _, _ => []
  end.

(** [slice off len l]: the [len] elements of [l] from offset [off]. *)
Definition slice {X : Type} (off len : nat) (l : list X) : list X :=
  firstn len (skipn off l).

(** ** Integer instructions *)

Definition _mm512_set1_epi8 (v : Z) : list Z := repeat (wrap8 v) 64.
Definition _mm512_set1_epi32 (v : Z) : list Z := repeat (wrap32 v) 16.

(** Bit [i] of the mask is set when [a_i AND b_i] is not zero. *)
Definition _mm512_test_epi8_mask (a b : list Z) : list bool :=
  map2 (fun x y => negb (Z.land (as_u8 x) (as_u8 y) =? 0)) a b.

(** Absolute value of signed 8-bit lanes; -128 stays the bit pattern 0x80. *)
Definition _mm512_abs_epi8 (a : list Z) : list Z :=
  map (fun x => wrap8 (Z.abs (wrap8 x))) a.

(** Lane [i] is [a_i - b_i] (wrapping) where the mask is set, else [src_i]. *)
Fixpoint _mm512_mask_sub_epi8 (src : list Z) (k : list bool) (a b : list Z) : list Z :=
  match src, k, a, b with
  | s :: src', m :: k', x :: a', y :: b' =>
      (if m then wrap8 (x - y) else s) :: _mm512_mask_sub_epi8 src' k' a' b'
  | _, _, _, _ => []
  end.

(** Unsigned bytes of [a] times signed bytes of [b]; adjacent products are
    added with signed saturation into 16-bit lanes. *)
Fixpoint _mm512_maddubs_epi16 (a b : list Z) : list Z :=
  match a, b with
  | a0 :: a1 :: a', b0 :: b1 :: b' =>
      sat16 (as_u8 a0 * wrap8 b0 + as_u8 a1 * wrap8 b1) :: _mm512_maddubs_epi16 a' b'
  | _, _ => []
  end.

(** Saturating addition of signed 16-bit lanes. *)
Definition _mm512_adds_epi16 (a b : list Z) : list Z :=
  map2 (fun x y => sat16 (x + y)) a b.

(** Signed 16-bit lanes multiplied; adjacent products added into 32 bits. *)
Fixpoint _mm512_madd_epi16 (a b : list Z) : list Z :=
  match a, b with
  | a0 :: a1 :: a', b0 :: b1 :: b' =>
      wrap32 (a0 * b0 + a1 * b1) :: _mm512_madd_epi16 a' b'
  | _, _ => []
  end.

Definition _mm512_max_epi32 (a b : list Z) : list Z := map2 Z.max a b.
Definition _mm512_max_epi8 (a b : list Z) : list Z := map2 Z.max a b.

(** Modelled from the spec: the wrappers of intrinsics.h, which is not in
    this file.  The kernel multiply-accumulates pairs of adjacent 8-bit
    elements into 16-bit partial sums ([maddubs_epi16], the instruction the
    loop body names directly), widens by a multiply-add against an
    all-ones vector ([madd_epi16], [set1_epi16]) and starts from a zero
    register ([setzero_si]). *)
Definition maddubs_epi16 (a b : list Z) : list Z := _mm512_maddubs_epi16 a b.
Definition madd_epi16 (a b : list Z) : list Z := _mm512_madd_epi16 a b.
Definition set1_epi16 (v : Z) : list Z := repeat (wrap16 v) 32.
Definition setzero_si : list Z := repeat 0 64.

(** ** The sign trick of the 8-bit kernel

    One register [a] of A against one register [b] of B, as in the body
    of the loop over the shared dimension: mask of the negative lanes of
    [a], absolute value of [a], [b] negated under the mask, then the
    unsigned-by-signed multiply-add. *)
Definition sign_trick (a b : list Z) : list Z :=
  let zeros := setzero_si in
  let neg_mask := _mm512_test_epi8_mask a (_mm512_set1_epi8 (-128)) in
  let a_positive := _mm512_abs_epi8 a in
  _mm512_maddubs_epi16 a_positive (_mm512_mask_sub_epi8 b neg_mask zeros b).

(** The signed-by-signed reference: exact sums of adjacent products. *)
Fixpoint pair_products (a b : list Z) : list Z :=
  match a, b with
  | a0 :: a1 :: a', b0 :: b1 :: b' => (a0 * b0 + a1 * b1) :: pair_products a' b'
  | _, _ => []
  end.

(** ** Memory *)

(** Dereferencing a [const __m512i *] at byte offset [off] of a buffer. *)
Definition load_si512 (mem : list Z) (off : nat) : outcome (list Z) :=
  if (off + 64 <=? length mem)%nat then Done (slice off 64 mem) else OutOfBounds.

(** Eight values, one per column of a strip: [sum0] .. [sum7], [b0] .. [b7]. *)
Record oct (X : Type) : Type := Oct {
  o0 : X; o1 : X; o2 : X; o3 : X; o4 : X; o5 : X; o6 : X; o7 : X
}.

Arguments Oct {X} _ _ _ _ _ _ _ _.
Arguments o0 {X} _.
Arguments o1 {X} _.
Arguments o2 {X} _.
Arguments o3 {X} _.
Arguments o4 {X} _.
Arguments o5 {X} _.
Arguments o6 {X} _.
Arguments o7 {X} _.

Definition oct_map {X Y : Type} (f : X -> Y) (s : oct X) : oct Y :=
  Oct (f (o0 s)) (f (o1 s)) (f (o2 s)) (f (o3 s))
      (f (o4 s)) (f (o5 s)) (f (o6 s)) (f (o7 s)).

Definition oct_map2 {X Y W : Type} (f : X -> Y -> W) (s : oct X) (t : oct Y) : oct W :=
  Oct (f (o0 s) (o0 t)) (f (o1 s) (o1 t)) (f (o2 s) (o2 t)) (f (o3 s) (o3 t))
      (f (o4 s) (o4 t)) (f (o5 s) (o5 t)) (f (o6 s) (o6 t)) (f (o7 s) (o7 t)).

Definition oct_list {X : Type} (s : oct X) : list X :=
  [o0 s; o1 s; o2 s; o3 s; o4 s; o5 s; o6 s; o7 s].

(** [B_live[0]] .. [B_live[7]], where [B_live] counts registers. *)
Definition load8 (B : list Z) (B_live : nat) : outcome (oct (list Z)) :=
  b0 <- load_si512 B (64 * B_live) ;;
  b1 <- load_si512 B (64 * (B_live + 1)) ;;
  b2 <- load_si512 B (64 * (B_live + 2)) ;;
  b3 <- load_si512 B (64 * (B_live + 3)) ;;
  b4 <- load_si512 B (64 * (B_live + 4)) ;;
  b5 <- load_si512 B (64 * (B_live + 5)) ;;
  b6 <- load_si512 B (64 * (B_live + 6)) ;;
  b7 <- load_si512 B (64 * (B_live + 7)) ;;
  Done (Oct b0 b1 b2 b3 b4 b5 b6 b7).

(** ** The reduction after the shared-dimension loop *)

(** Sum of the 32-bit lanes of a register, each addition wrapping. *)
Definition hsum32 (r : list Z) : Z :=
  fold_right (fun x acc => wrap32 (x + acc)) 0 r.

(** Modelled from the spec: [Pack0123] and [PermuteSummer] of multiply.h,
    which is not in this file.  After widening, the kernel performs the
    final horizontal reduction and permutation that lays the per-column
    totals out contiguously: [Pack0123] reduces four registers of 32-bit
    sums to their four totals, [PermuteSummer] joins the two halves into
    the vector of eight totals handed to the callback. *)
Definition Pack0123 (sum0 sum1 sum2 sum3 : list Z) : list Z :=
  [hsum32 sum0; hsum32 sum1; hsum32 sum2; hsum32 sum3].

(** Modelled from the spec: see [Pack0123]. *)
Definition PermuteSummer (pack0123 pack4567 : list Z) : list Z :=
  pack0123 ++ pack4567.

(** ** The callback *)

(** Modelled from the spec: [callbacks::CallbackImpl] of callbacks.h,
    which is not in this file.  The callback is invoked synchronously as
    [callback(totals, rowIndex, columnStripStart, A_rows, width, B_cols)];
    the record is one invocation
    [callback_impl(total, A_rowidx, B0_colidx, A_rows, width, B_cols)]. *)
Record callback_call : Type := Call {
  call_total : list Z;
  call_A_rowidx : nat;
  call_B0_colidx : nat;
  call_A_rows : nat;
  call_width : nat;
  call_B_cols : nat
}.

(** The pair (row index, strip start) a call is made for. *)
Definition call_position (c : callback_call) : nat * nat :=
  (call_A_rowidx c, call_B0_colidx c).

(** ** AVX512_8bit::Multiply *)

Module AVX512_8bit_Multiply.

Section Kernel.

Variables A B : list Z.
Variables A_rows width B_cols : nat.

(** [sizeof(Integer)], with [Integer] the 512-bit register. *)
Definition sizeof_Integer : nat := 64.

(** The loop over the shared dimension, after the first chunk:
    [for (; A_live != A_end; ++A_live, B_live += 8)].
    [A_live] and [A_end] are byte offsets in [A], [B_live] counts
    registers of [B]. *)
Fixpoint shared_loop (n : nat) (A_live A_end B_live : nat)
    (sums : oct (list Z)) : outcome (oct (list Z)) :=
  match n with
  | O => OutOfFuel
  | S n' =>
      if (A_live =? A_end)%nat then Done sums
      else
        let zeros := setzero_si in
        a <- load_si512 A A_live ;;
        b <- load8 B B_live ;;
        let neg_mask := _mm512_test_epi8_mask a (_mm512_set1_epi8 (-128)) in
        let a_positive := _mm512_abs_epi8 a in
        let b := oct_map (fun bi => _mm512_mask_sub_epi8 bi neg_mask zeros bi) b in
        let b := oct_map (fun bi => _mm512_maddubs_epi16 a_positive bi) b in
        let sums := oct_map2 _mm512_adds_epi16 sums b in
        shared_loop n' (A_live + sizeof_Integer) A_end (B_live + 8) sums
  end.

(** The body of the loop over rows: the totals of row [A_rowidx] against
    the strip whose first register is [B0_col]. *)
Definition row_total (fuel : nat) (simd_width B0_col A_rowidx : nat)
    : outcome (list Z) :=
  let zeros := setzero_si in
  let A_live := (A_rowidx * width)%nat in
  let A_end := (A_live + sizeof_Integer * simd_width)%nat in
  let B_live := B0_col in
  a <- load_si512 A A_live ;;
  b <- load8 B B_live ;;
  let neg_mask := _mm512_test_epi8_mask a (_mm512_set1_epi8 (-128)) in
  let a_positive := _mm512_abs_epi8 a in
  let sums :=
    oct_map (fun bi => maddubs_epi16 a_positive
                         (_mm512_mask_sub_epi8 bi neg_mask zeros bi)) b in
  sums <- shared_loop fuel (A_live + sizeof_Integer) A_end (B_live + 8) sums ;;
  let ones := set1_epi16 1 in
  let sums := oct_map (fun s => madd_epi16 s ones) sums in
  let pack0123 := Pack0123 (o0 sums) (o1 sums) (o2 sums) (o3 sums) in
  let pack4567 := Pack0123 (o4 sums) (o5 sums) (o6 sums) (o7 sums) in
  Done (PermuteSummer pack0123 pack4567).

(** [for (Index A_rowidx = 0; A_rowidx < A_rows; ++A_rowidx)] *)
Fixpoint rows_loop (n fuel : nat) (simd_width B0_col B0_colidx A_rowidx : nat)
    : outcome (list callback_call) :=
  match n with
  | O => OutOfFuel
  | S n' =>
      if (A_rowidx <? A_rows)%nat then
        total <- row_total fuel simd_width B0_col A_rowidx ;;
        rest <- rows_loop n' fuel simd_width B0_col B0_colidx (S A_rowidx) ;;
        Done (Call total A_rowidx B0_colidx A_rows width B_cols :: rest)
      else Done []
  end.

(** [for (Index B0_colidx = 0; B0_colidx != B_cols;
         B0_col += 8 * simd_width, B0_colidx += 8)] *)
Fixpoint strips_loop (n fuel : nat) (simd_width B0_col B0_colidx : nat)
    : outcome (list callback_call) :=
  match n with
  | O => OutOfFuel
  | S n' =>
      if (B0_colidx =? B_cols)%nat then Done []
      else
        strip <- rows_loop fuel fuel simd_width B0_col B0_colidx 0 ;;
        rest <- strips_loop n' fuel simd_width
                  (B0_col + 8 * simd_width) (B0_colidx + 8) ;;
        Done (strip ++ rest)
  end.

End Kernel.

(** [Multiply(A, B, A_rows, width, B_cols, callback)]: the calls made to
    the callback, in order.  [A_addr] and [B_addr] are the addresses of the
    two buffers; each loop may take at most [fuel] iterations. *)
Definition Multiply (fuel : nat) (A_addr B_addr : nat) (A B : list Z)
    (A_rows width B_cols : nat) : outcome (list callback_call) :=
  _ <- assert (width mod sizeof_Integer =? 0)%nat ;;
  _ <- assert (B_cols mod 8 =? 0)%nat ;;
  _ <- assert (A_addr mod sizeof_Integer =? 0)%nat ;;
  _ <- assert (B_addr mod sizeof_Integer =? 0)%nat ;;
  let simd_width := (width / sizeof_Integer)%nat in
  strips_loop A B A_rows width B_cols fuel fuel simd_width 0 0.

End AVX512_8bit_Multiply.
Import AVX512_8bit_Multiply.

(** ** Single-precision floats *)

Module Float32.

(** IEEE binary32: 24 bits of precision, exponents below 128. *)
Definition prec : Z := 24.
Definition emax : Z := 128.

Abbreviation float := spec_float.

Definition is_finite (x : float) : bool :=
  match x with
  | S754_zero _ | S754_finite _ _ _ => true
  | S754_infinity _ | S754_nan => false
  end.

(** The rational a finite float stands for (0 for the others). *)
Definition F2Q (x : float) : Q :=
  match x with
  | S754_finite s m e =>
      if 0 <=? e then inject_Z (cond_Zopp s (Zpos m) * 2 ^ e)
      else Qmake (cond_Zopp s (Zpos m)) (Z.to_pos (2 ^ (- e)))
  | _ => 0%Q
  end.

(** The nearest integer to [m * 2^e], ties to the even one: the rounding
    of a float-to-integer conversion under the default MXCSR mode. *)
Definition nearest_even (m : positive) (e : Z) : Z :=
  if 0 <=? e then Zpos m * 2 ^ e
  else
    let d := 2 ^ (- e) in
    let q := Zpos m / d in
    let r := Zpos m mod d in
    if 2 * r <? d then q
    else if d <? 2 * r then q + 1
    else if Z.even q then q else q + 1.

(** What a conversion returns when the result does not fit 32 bits, or
    for an infinity or a NaN: the bit pattern 0x80000000. *)
Definition int32_indefinite : Z := -2147483648.

(** One lane of [_mm512_cvtps_epi32]. *)
Definition cvtss_si32 (x : float) : Z :=
  match x with
  | S754_zero _ => 0
  | S754_infinity _ | S754_nan => int32_indefinite
  | S754_finite s m e =>
      let r := cond_Zopp s (nearest_even m e) in
      if (-2147483648 <=? r) && (r <=? 2147483647) then r
      else int32_indefinite
  end.

End Float32.
Import Float32.

(** ** Float instructions *)

Definition _mm512_set1_ps (x : float) : list float := repeat x 16.

Definition _mm512_mul_ps (a b : list float) : list float :=
  map2 (SFmul prec emax) a b.

Definition _mm512_cvtps_epi32 (a : list float) : list Z := map cvtss_si32 a.

(** The upper 256 bits of the result are undefined; zeros stand for them. *)
Definition _mm512_castps256_ps512 (a : list float) : list float :=
  firstn 8 a ++ repeat (S754_zero false) 8.

(** Replaces the 256-bit half of [a] selected by [imm8] by [b]. *)
Definition _mm512_insertf32x8 (a b : list float) (imm8 : Z) : list float :=
  if Z.testbit imm8 0 then firstn 8 a ++ firstn 8 b
  else firstn 8 b ++ skipn 8 a.

(** Modelled from the spec: [loadu_ps<Register>] of intrinsics.h, which
    is not in this file: the unaligned load of one register of floats,
    [lanes] = 16 for [__m512] and 8 for the half-width [__m256] slices the
    packer gathers. *)
Definition loadu_ps (lanes : nat) (mem : list float) (off : nat)
    : outcome (list float) :=
  if (off + lanes <=? length mem)%nat then Done (slice off lanes mem)
  else OutOfBounds.

(** The lanes selected by mask [k], lowest first. *)
Definition masked_lanes {X : Type} (k : Z) (a : list X) : list X :=
  map snd (filter (fun p => Z.testbit k (Z.of_nat (fst p)))
                  (combine (seq 0 (length a)) a)).

(** The 16-bit values [_mm512_mask_cvtsepi32_storeu_epi16(out, k, a)]
    stores: the selected 32-bit lanes, narrowed with signed saturation. *)
Definition _mm512_mask_cvtsepi32_storeu_epi16 (k : Z) (a : list Z) : list Z :=
  map sat16 (masked_lanes k a).

(** The bytes [_mm512_mask_cvtsepi32_storeu_epi8(out, k, a)] stores. *)
Definition _mm512_mask_cvtsepi32_storeu_epi8 (k : Z) (a : list Z) : list Z :=
  map sat8 (masked_lanes k a).

(** [_mm512_set_epi32(e15, ..., e0)]: the arguments name the lanes from
    the highest down. *)
Definition _mm512_set_epi32
    (e15 e14 e13 e12 e11 e10 e9 e8 e7 e6 e5 e4 e3 e2 e1 e0 : Z) : list Z :=
  [e0; e1; e2; e3; e4; e5; e6; e7; e8; e9; e10; e11; e12; e13; e14; e15].

(** Narrowing with signed saturation, within each 128-bit part: four
    lanes of [a], then four lanes of [b]. *)
Definition _mm512_packs_epi32 (a b : list Z) : list Z :=
  concat (map (fun j => map sat16 (slice (4 * j) 4 a)
                        ++ map sat16 (slice (4 * j) 4 b)) (seq 0 4)).

Definition _mm512_packs_epi16 (a b : list Z) : list Z :=
  concat (map (fun j => map sat8 (slice (8 * j) 8 a)
                        ++ map sat8 (slice (8 * j) 8 b)) (seq 0 4)).

(** 32-bit element [i] of the result is element [idx_i mod 16] of [a];
    [a] is given by its 64 bytes, four to an element. *)
Definition _mm512_permutexvar_epi32 (idx : list Z) (a : list Z) : list Z :=
  concat (map (fun i => slice (4 * Z.to_nat (i mod 16)) 4 a) idx).


(** ** namespace avx512f *)

Module avx512f.

(** Modelled from the spec: [kernels::quantize] of kernels.h, which is
    not in this file: multiply by the multiplier and round to nearest
    integer by the hardware rounding conversion (as [QuantizerGrabHalves]
    below spells out). *)
Definition kernels_quantize (input quant_mult : list float) : list Z :=
  _mm512_cvtps_epi32 (_mm512_mul_ps input quant_mult).

Definition QuantizerGrab (mem : list float) (input : nat)
    (quant_mult_reg : list float) : outcome (list Z) :=
  v <- loadu_ps 16 mem input ;;
  Done (kernels_quantize v quant_mult_reg).

Definition Concat (first second : list float) : list float :=
  _mm512_insertf32x8 (_mm512_castps256_ps512 first) second 1.

Definition QuantizerGrabHalves (mem : list float) (input0 input1 : nat)
    (quant_mult_reg : list float) : outcome (list Z) :=
  h0 <- loadu_ps 8 mem input0 ;;
  h1 <- loadu_ps 8 mem input1 ;;
  let appended := Concat h0 h1 in
  let appended := _mm512_mul_ps appended quant_mult_reg in
  Done (_mm512_cvtps_epi32 appended).



(** [QuantizeTile8::ForReshape(input, cols)], with [mult_reg_] the
    register the constructor filled with the multiplier. *)
Definition QuantizeTile8_ForReshape (mult_reg_ : list float)
    (mem : list float) (input cols : nat) : outcome (list Z) :=
  let neg127 := _mm512_set1_epi8 (-127) in
  let shuffle_param :=
    _mm512_set_epi32 15 11 7 3 14 10 6 2 13 9 5 1 12 8 4 0 in
  g0 <- QuantizerGrabHalves mem input (input + 2 * cols) mult_reg_ ;;
  g1 <- QuantizerGrabHalves mem (input + 16 * cols) (input + 18 * cols) mult_reg_ ;;
  g2 <- QuantizerGrabHalves mem (input + 32 * cols) (input + 34 * cols) mult_reg_ ;;
  g3 <- QuantizerGrabHalves mem (input + 48 * cols) (input + 50 * cols) mult_reg_ ;;
  let packed0 := _mm512_packs_epi32 g0 g1 in
  let packed1 := _mm512_packs_epi32 g2 g3 in
  let packed := _mm512_packs_epi16 packed0 packed1 in
  let packed := _mm512_max_epi8 packed neg127 in
  Done (_mm512_permutexvar_epi32 shuffle_param packed).

Definition QuantizeTile8 (mult : float) : list float := _mm512_set1_ps mult.

(** Running a fallible step over a list, left to right. *)
Fixpoint mapM {X Y : Type} (f : X -> outcome Y) (l : list X) : outcome (list Y) :=
  match l with
  | [] => Done []
  | x :: l' => y <- f x ;; ys <- mapM f l' ;; Done (y :: ys)
  end.

(** Modelled from the spec: [SelectColumnsOfB], which the macro
    INTGEMM_SELECT_COL_B of interleave.h generates; the macro is not in
    this file.  The selector works on the tiled representation only: for
    each group of 8 requested column indices it copies the registers of
    those columns verbatim, each selected column in full (across all
    rows) and independently of the others.  The size of the index list is
    a multiple of 8.  The position of a column is the one [Multiply]
    reads it at: a strip of 8 columns is [8 * register_rows] consecutive
    registers, and within a strip the registers of one chunk of rows are
    consecutive, one per column.

    [copy_rows] copies the registers of the columns that start at
    [starts], for [n] chunks of rows from chunk [r] on. *)
Fixpoint copy_rows (input : list Z) (starts : list nat) (n r : nat)
    : outcome (list Z) :=
  match n with
  | O => Done []
  | S n' =>
      regs <- mapM (fun s => load_si512 input (64 * (s + 8 * r))) starts ;;
      rest <- copy_rows input starts n' (S r) ;;
      Done (concat regs ++ rest)
  end.

(** Modelled from the spec: the groups of 8 column indices of
    [SelectColumnsOfB], one after the other. *)
Fixpoint select_groups (input : list Z) (register_rows : nat)
    (cols : list nat) : outcome (list Z) :=
  match cols with
  | [] => Done []
  | c0 :: c1 :: c2 :: c3 :: c4 :: c5 :: c6 :: c7 :: cols' =>
      let starts :=
        map (fun ck => (ck mod 8 + (ck / 8 * 8) * register_rows)%nat)
            [c0; c1; c2; c3; c4; c5; c6; c7] in
      group <- copy_rows input starts register_rows 0 ;;
      rest <- select_groups input register_rows cols' ;;
      Done (group ++ rest)
  | _ => OutOfBounds
  end.

(** Modelled from the spec: [SelectColumnsOfB(input, output, rows_bytes,
    cols_begin, cols_end)] with its preconditions as assertions; the
    result is the buffer written through [output]. *)
Definition SelectColumnsOfB (input : list Z) (rows_bytes : nat)
    (cols : list nat) : outcome (list Z) :=
  _ <- assert (rows_bytes mod 64 =? 0)%nat ;;
  _ <- assert (length cols mod 8 =? 0)%nat ;;
  select_groups input (rows_bytes / 64) cols.

End avx512f.

(** ** struct AVX512_16bit *)

Module AVX512_16bit.

(** [for (; input != end; input += 16, output += 16)]; the result is
    what the stores write through [output], in order. *)
Fixpoint Quantize_loop (n : nat) (mem : list float)
    (quant_mult_reg : list float) (input end_ : nat) : outcome (list Z) :=
  match n with
  | O => OutOfFuel
  | S n' =>
      if (input =? end_)%nat then Done []
      else
        v <- avx512f.QuantizerGrab mem input quant_mult_reg ;;
        rest <- Quantize_loop n' mem quant_mult_reg (input + 16) end_ ;;
        Done (_mm512_mask_cvtsepi32_storeu_epi16 0xffff v ++ rest)
  end.

(** [Quantize(input, output, quant_mult, size)]; [input_addr] is the
    address of the float buffer [mem]. *)
Definition Quantize (fuel : nat) (input_addr : nat) (mem : list float)
    (quant_mult : float) (size : nat) : outcome (list Z) :=
  _ <- assert (size mod 16 =? 0)%nat ;;
  _ <- assert (input_addr mod 64 =? 0)%nat ;;
  let quant_mult_reg := _mm512_set1_ps quant_mult in
  let end_ := (0 + size)%nat in
  Quantize_loop fuel mem quant_mult_reg 0 end_.

Definition PrepareA (fuel : nat) (input_addr : nat) (mem : list float)
    (quant_mult : float) (rows cols : nat) : outcome (list Z) :=
  Quantize fuel input_addr mem quant_mult (rows * cols).

Definition kBTileRow : nat := 32.
Definition kBTileCol : nat := 8.

End AVX512_16bit.

(** ** struct AVX512_8bit *)

Module AVX512_8bit.

(** [for (; input < end; input += 16, output += 16)] *)
Fixpoint Quantize_loop (n : nat) (mem : list float)
    (neg127 : list Z) (quant_mult_reg : list float) (input end_ : nat)
    : outcome (list Z) :=
  match n with
  | O => OutOfFuel
  | S n' =>
      if (input <? end_)%nat then
        asint <- avx512f.QuantizerGrab mem input quant_mult_reg ;;
        let asint := _mm512_max_epi32 asint neg127 in
        rest <- Quantize_loop n' mem neg127 quant_mult_reg (input + 16) end_ ;;
        Done (_mm512_mask_cvtsepi32_storeu_epi8 0xffff asint ++ rest)
      else Done []
  end.

Definition Quantize (fuel : nat) (input_addr : nat) (mem : list float)
    (quant_mult : float) (size : nat) : outcome (list Z) :=
  _ <- assert (size mod 16 =? 0)%nat ;;
  _ <- assert (input_addr mod 64 =? 0)%nat ;;
  let neg127 := _mm512_set1_epi32 (-127) in
  let quant_mult_reg := _mm512_set1_ps quant_mult in
  let end_ := (0 + size)%nat in
  Quantize_loop fuel mem neg127 quant_mult_reg 0 end_.

Definition PrepareA (fuel : nat) (input_addr : nat) (mem : list float)
    (quant_mult : float) (rows cols : nat) : outcome (list Z) :=
  Quantize fuel input_addr mem quant_mult (rows * cols).

Definition kBTileRow : nat := 64.
Definition kBTileCol : nat := 8.

(** [SelectColumnsB(input, output, rows, cols_begin, cols_end)]: the
    buffer written through [output]. *)
Definition SelectColumnsB (input : list Z) (rows : nat) (cols : list nat)
    : outcome (list Z) :=
  avx512f.SelectColumnsOfB input rows cols.

Definition Multiply := AVX512_8bit_Multiply.Multiply.

End AVX512_8bit.

(** ** What the 8-bit quantizer stores for one float *)

(** One lane of [AVX512_8bit::Quantize]: scale, convert, clamp from below
    at -127, narrow with saturation. *)
Definition quantize8 (quant_mult x : float) : Z :=
  sat8 (Z.max (cvtss_si32 (SFmul prec emax x quant_mult)) (wrap32 (-127))).

(** One lane of [AVX512_16bit::Quantize]. *)
Definition quantize16 (quant_mult x : float) : Z :=
  sat16 (cvtss_si32 (SFmul prec emax x quant_mult)).

(** ** Closed forms of the kernel, for the proofs *)

(** The eight registers [B_live[0]] .. [B_live[7]]. *)
Definition regs8 (B : list Z) (B_live : nat) : oct (list Z) :=
  Oct (slice (64 * B_live) 64 B) (slice (64 * (B_live + 1)) 64 B)
      (slice (64 * (B_live + 2)) 64 B) (slice (64 * (B_live + 3)) 64 B)
      (slice (64 * (B_live + 4)) 64 B) (slice (64 * (B_live + 5)) 64 B)
      (slice (64 * (B_live + 6)) 64 B) (slice (64 * (B_live + 7)) 64 B).

(** [k] more chunks of the shared dimension added into [sums]. *)
Fixpoint shared_chunks (A B : list Z) (k : nat) (A_live B_live : nat)
    (sums : oct (list Z)) : oct (list Z) :=
  match k with
  | O => sums
  | S k' =>
      let a := slice A_live 64 A in
      let b := oct_map (sign_trick a) (regs8 B B_live) in
      shared_chunks A B k' (A_live + 64) (B_live + 8)
        (oct_map2 _mm512_adds_epi16 sums b)
  end.

(** The reduction of the eight 16-bit sums to the eight 32-bit totals. *)
Definition reduce (sums : oct (list Z)) : list Z :=
  let sums := oct_map (fun s => madd_epi16 s (set1_epi16 1)) sums in
  PermuteSummer (Pack0123 (o0 sums) (o1 sums) (o2 sums) (o3 sums))
                (Pack0123 (o4 sums) (o5 sums) (o6 sums) (o7 sums)).

(** The totals of row [A_rowidx] against the strip starting at register
    [B0_col], for [simd_width] chunks. *)
Definition row_chunks (A B : list Z) (width simd_width B0_col A_rowidx : nat)
    : list Z :=
  let A_live := (A_rowidx * width)%nat in
  let first := oct_map (sign_trick (slice A_live 64 A)) (regs8 B B0_col) in
  reduce (shared_chunks A B (simd_width - 1) (A_live + 64) (B0_col + 8) first).

(** The calls of a complete run: strips outermost, rows within. *)
Definition Multiply_calls (A B : list Z) (A_rows width B_cols : nat)
    : list callback_call :=
  flat_map
    (fun s =>
       map (fun r =>
              Call (row_chunks A B width (width / 64) (8 * (width / 64) * s) r)
                   r (8 * s) A_rows width B_cols)
           (seq 0 A_rows))
    (seq 0 (B_cols / 8)).

(** The positions of the claimed order: strip starts 0, 8, 16, ...
    outermost, rows 0 .. R-1 within. *)
Definition positions (R C : nat) : list (nat * nat) :=
  flat_map (fun s => map (fun r => (r, (8 * s)%nat)) (seq 0 R)) (seq 0 (C / 8)).


(** The sum of the lanes of a register, without wrap-around. *)
Definition zsum (l : list Z) : Z := fold_right Z.add 0 l.



(** ** Rounding to single precision, for the proofs *)

(** After [k] one-bit shifts of the mantissa [M], the record holds the
    quotient, the round bit and the sticky bit: twice [M] is
    [(2 * shr_m + shr_r) * 2^k + t] with [t] below [2^k], and the sticky
    bit tells whether [t] is zero. *)
Definition shr_inv (M k : Z) (mrs : shr_record) : Prop :=
  0 <= k /\ 0 <= shr_m mrs
  /\ exists t,
       2 * M = (2 * shr_m mrs + (if shr_r mrs then 1 else 0)) * 2 ^ k + t
       /\ 0 <= t < 2 ^ k
       /\ (if shr_s mrs then t <> 0 else t = 0).

(** Powers of two, of either sign of the exponent, as rationals. *)
Definition pow2 (e : Z) : Q := inject_Z 2 ^ e.

(** A register or buffer of zeros; a property of all eight of an [oct]. *)
Definition all0 (l : list Z) : Prop := Forall (fun x => x = 0) l.

Definition oct_all {X : Type} (P : X -> Prop) (s : oct X) : Prop :=
  Forall P (oct_list s).

(** ** Closed forms of the packers' tiles, for the proofs *)



(** A float whose nearest integer fits 32 bits with either sign. *)
Definition in_int32 (p : float) : Prop :=
  is_finite p = true /\ (Qabs (F2Q p) <= inject_Z 2147483647)%Q.

(** ** More closed forms of the kernel, for the proofs *)

(** A signed byte. *)
Definition int8 (x : Z) : Prop := -128 <= x <= 127.

(** What the sign trick multiplies on one lane: the product, with the
    wrong sign where a negative [a] meets the one [b] that has no
    negation in 8 bits. *)
Definition lane_product (a b : Z) : Z :=
  if (a <? 0) && (b =? -128) then - (a * b) else a * b.

Fixpoint pair_lane_products (a b : list Z) : list Z :=
  match a, b with
  | a0 :: a1 :: a', b0 :: b1 :: b' =>
      (lane_product a0 b0 + lane_product a1 b1) :: pair_lane_products a' b'
  | _, _ => []
  end.

(** The range of a saturated 16-bit lane, and of a total: 32 such lanes. *)
Definition range16 (x : Z) : Prop := -32768 <= x <= 32767.
Definition total_range (x : Z) : Prop := -1048576 <= x <= 1048544.

(** One column of [shared_chunks]: [k] more chunks of the row against
    the registers [B_reg], [B_reg + 8], ... added into [sum]. *)
Fixpoint column_chunks (A B : list Z) (k : nat) (A_live B_reg : nat)
    (sum : list Z) : list Z :=
  match k with
  | O => sum
  | S k' =>
      column_chunks A B k' (A_live + 64) (B_reg + 8)
        (_mm512_adds_epi16 sum
           (sign_trick (slice A_live 64 A) (slice (64 * B_reg) 64 B)))
  end.

(** One entry of [row_chunks]: the total of row [A_rowidx] against the
    column whose first register is [B_reg]. *)
Definition column_total (A B : list Z) (width simd_width A_rowidx B_reg : nat)
    : Z :=
  let A_live := (A_rowidx * width)%nat in
  hsum32 (madd_epi16
            (column_chunks A B (simd_width - 1) (A_live + 64) (B_reg + 8)
               (sign_trick (slice A_live 64 A) (slice (64 * B_reg) 64 B)))
            (set1_epi16 1)).



(** ** Concrete inputs *)

Definition example_a : list Z := map (fun i => Z.of_nat i - 64) (seq 0 64).
Definition example_b : list Z := map (fun i => 100 - 3 * Z.of_nat i) (seq 0 64).

(** Two rows of 64 quantized values, and two strips of packed B. *)
Definition example_A : list Z := example_a ++ example_b.
Definition example_B : list Z := concat (repeat example_b 16).

(** The float nearest to an integer. *)
Definition float_of_Z (z : Z) : float := binary_normalize prec emax z 0 false.

(** 32 floats: -300, -280, ..., 320. *)
Definition example_floats : list float :=
  map (fun i => float_of_Z (Z.of_nat i * 20 - 300)) (seq 0 32).

(** The float 9786709 * 2^-23 = 1.16666662693..., just below 7/6, and
    the multiplier 3: their exact product 3.49999988... lies half-way
    between two floats and rounds (to even) to 3.5. *)
Definition example_x : float := S754_finite false 9786709 (-23).
Definition example_mult : float := S754_finite false 12582912 (-22).

(** The float 1/2, and a packed B of 16 registers, register [i] filled
    with the value [i]. *)
Definition example_half : float := S754_finite false 8388608 (-24).
Definition example_packed : list Z :=
  map (fun i => Z.of_nat (i / 64)) (seq 0 1024).

(** A 64 x 8 tile of floats: -256, -255, ..., 255, row by row. *)
Definition example_tile : list float :=
  map (fun i => float_of_Z (Z.of_nat i - 256)) (seq 0 512).


(** Boolean form of [in127], to check concrete registers. *)
Definition in127b (x : Z) : bool := (-127 <=? x) && (x <=? 127).

(** Boolean forms of [int8], [within] and [in_int32]. *)
Definition int8b (x : Z) : bool := (-128 <=? x) && (x <=? 127).
Definition in_int32b (p : float) : bool :=
  is_finite p && Qle_bool (Qabs (F2Q p)) (inject_Z 2147483647).

(** A register of the one byte that has no negation, and a row of two
    chunks. *)
Definition example_min : list Z := repeat (-128) 64.
Definition example_row2 : list Z := example_a ++ example_a.

(** * Properties *)

(** ** Outcomes *)

Lemma bind_Done {X Y : Type} (m : outcome X) (k : X -> outcome Y) (y : Y) :
  bind m k = Done y -> exists x, m = Done x /\ k x = Done y.
Proof.
  destruct m as [x| | |]; simpl; intros H; try discriminate.
  exists x. split; [reflexivity | exact H].
Qed.


(** ** Lane arithmetic *)


Lemma wrap32_id (x : Z) : -2147483648 <= x <= 2147483647 -> wrap32 x = x.
Proof. intros H. unfold wrap32. rewrite Z.mod_small; lia. Qed.


Lemma sat16_id (x : Z) : -32768 <= x <= 32767 -> sat16 x = x.
Proof. unfold sat16. lia. Qed.

Lemma sat8_range (x : Z) : -128 <= sat8 x <= 127.
Proof. unfold sat8. lia. Qed.

(** A boolean property of all 256 values of a signed byte, by enumeration. *)
Lemma forall_int8 (P : Z -> bool) :
  forallb P (map (fun n => Z.of_nat n - 128) (seq 0 256)) = true ->
  forall x, -128 <= x <= 127 -> P x = true.
Proof.
  intros H x Hx. rewrite forallb_forall in H. apply H.
  apply in_map_iff. exists (Z.to_nat (x + 128)). split.
  - lia.
  - apply in_seq. lia.
Qed.

(** Testing against 0x80 reads the sign bit. *)
Lemma test_sign_bit (x : Z) :
  -128 <= x <= 127 ->
  negb (Z.land (as_u8 x) (as_u8 (wrap8 (-128))) =? 0) = (x <? 0).
Proof.
  intros Hx.
  apply (forall_int8
           (fun x => Bool.eqb (negb (Z.land (as_u8 x) (as_u8 (wrap8 (-128))) =? 0))
                              (x <? 0))) in Hx.
  - apply Bool.eqb_prop. exact Hx.
  - vm_compute. reflexivity.
Qed.



(** Induction on a list two elements at a time. *)
Lemma list_pair_ind {X : Type} (P : list X -> Prop) :
  P [] -> (forall x, P [x]) -> (forall x y l, P l -> P (x :: y :: l)) ->
  forall l, P l.
Proof.
  intros H0 H1 H2.
  assert (H : forall l, P l /\ forall x, P (x :: l)).
  { induction l as [|y l [IH IH']].
    - split; [exact H0 | exact H1].
    - split; [apply IH' | intros x; apply H2; exact IH]. }
  intros l. apply H.
Qed.



(** ** The kernel runs to its closed form *)

Lemma load_si512_Done (mem : list Z) (off : nat) :
  (off + 64 <= length mem)%nat -> load_si512 mem off = Done (slice off 64 mem).
Proof.
  intros H. unfold load_si512.
  destruct (Nat.leb_spec (off + 64) (length mem)); [reflexivity | lia].
Qed.

Lemma load8_Done (B : list Z) (B_live : nat) :
  (64 * (B_live + 8) <= length B)%nat -> load8 B B_live = Done (regs8 B B_live).
Proof.
  intros H. unfold load8.
  rewrite !load_si512_Done by lia. reflexivity.
Qed.

Lemma shared_loop_runs (A B : list Z) :
  forall (k n A_live B_live : nat) (sums : oct (list Z)),
    (k < n)%nat ->
    (A_live + 64 * k <= length A)%nat ->
    (64 * (B_live + 8 * k) <= length B)%nat ->
    shared_loop A B n A_live (A_live + 64 * k) B_live sums
    = Done (shared_chunks A B k A_live B_live sums).
Proof.
  induction k as [|k IH]; intros n A_live B_live sums Hn HA HB;
    (destruct n as [|n]; [lia|]).
  - simpl. replace (A_live + 0)%nat with A_live by lia.
    rewrite Nat.eqb_refl. reflexivity.
  - cbn [shared_loop shared_chunks].
    destruct (Nat.eqb_spec A_live (A_live + 64 * S k)); [lia|].
    rewrite load_si512_Done by lia.
    rewrite load8_Done by lia.
    cbn [bind]. unfold sizeof_Integer.
    replace (A_live + 64 * S k)%nat with (A_live + 64 + 64 * k)%nat by lia.
    apply IH; lia.
Qed.

Lemma row_total_runs (A B : list Z) (width fuel simd_width B0_col A_rowidx : nat) :
  (0 < simd_width)%nat ->
  (simd_width <= fuel)%nat ->
  (A_rowidx * width + 64 * simd_width <= length A)%nat ->
  (64 * (B0_col + 8 * simd_width) <= length B)%nat ->
  row_total A B width fuel simd_width B0_col A_rowidx
  = Done (row_chunks A B width simd_width B0_col A_rowidx).
Proof.
  intros Hpos Hfuel HA HB. unfold row_total, row_chunks.
  rewrite load_si512_Done by lia.
  rewrite load8_Done by lia.
  cbn [bind]. unfold sizeof_Integer.
  replace (A_rowidx * width + 64 * simd_width)%nat
    with (A_rowidx * width + 64 + 64 * (simd_width - 1))%nat by lia.
  rewrite shared_loop_runs by lia.
  reflexivity.
Qed.

Lemma rows_loop_runs (A B : list Z) (A_rows width B_cols : nat)
    (fuel simd_width B0_col B0_colidx : nat) :
  (0 < simd_width)%nat ->
  (simd_width <= fuel)%nat ->
  (A_rows * width <= length A)%nat ->
  width = (64 * simd_width)%nat ->
  (64 * (B0_col + 8 * simd_width) <= length B)%nat ->
  forall (k n A_rowidx : nat),
    (k < n)%nat ->
    (A_rowidx + k = A_rows)%nat ->
    rows_loop A B A_rows width B_cols n fuel simd_width B0_col B0_colidx A_rowidx
    = Done (map (fun r =>
                   Call (row_chunks A B width simd_width B0_col r)
                        r B0_colidx A_rows width B_cols)
                (seq A_rowidx k)).
Proof.
  intros Hpos Hfuel HA Hw HB.
  induction k as [|k IH]; intros n r Hn Hr; (destruct n as [|n]; [lia|]).
  - cbn [rows_loop seq map].
    destruct (Nat.ltb_spec r A_rows); [lia | reflexivity].
  - cbn [rows_loop seq map].
    destruct (Nat.ltb_spec r A_rows); [|lia].
    assert (Hrow : (r * width + width <= A_rows * width)%nat).
    { replace (r * width + width)%nat with (S r * width)%nat by lia.
      apply Nat.mul_le_mono_r. lia. }
    rewrite row_total_runs by lia.
    cbn [bind]. rewrite (IH n (S r)) by lia. reflexivity.
Qed.

Lemma strips_loop_runs (A B : list Z) (A_rows width B_cols : nat)
    (fuel simd_width : nat) :
  (0 < simd_width)%nat ->
  (simd_width <= fuel)%nat ->
  (A_rows < fuel)%nat ->
  (A_rows * width <= length A)%nat ->
  width = (64 * simd_width)%nat ->
  (width * B_cols <= length B)%nat ->
  forall (k n s : nat),
    (k < n)%nat ->
    (8 * (s + k) = B_cols)%nat ->
    strips_loop A B A_rows width B_cols n fuel simd_width
      (8 * simd_width * s) (8 * s)
    = Done (flat_map
              (fun s =>
                 map (fun r =>
                        Call (row_chunks A B width simd_width (8 * simd_width * s) r)
                             r (8 * s) A_rows width B_cols)
                     (seq 0 A_rows))
              (seq s k)).
Proof.
  intros Hpos Hfuel HR HA Hw HB.
  induction k as [|k IH]; intros n s Hn Hs; (destruct n as [|n]; [lia|]).
  - cbn [strips_loop seq flat_map].
    destruct (Nat.eqb_spec (8 * s) B_cols); [reflexivity | lia].
  - cbn [strips_loop seq flat_map].
    destruct (Nat.eqb_spec (8 * s) B_cols); [lia|].
    assert (Hstrip : (64 * simd_width * (8 * S s) <= 64 * simd_width * B_cols)%nat).
    { apply Nat.mul_le_mono_l. lia. }
    rewrite (rows_loop_runs A B A_rows width B_cols fuel simd_width
               (8 * simd_width * s) (8 * s) Hpos Hfuel HA Hw) with (k := A_rows);
      [ | subst width; nia | lia | lia ].
    cbn [bind].
    replace (8 * simd_width * s + 8 * simd_width)%nat
      with (8 * simd_width * S s)%nat by lia.
    replace (8 * s + 8)%nat with (8 * S s)%nat by lia.
    rewrite (IH n (S s)) by lia. reflexivity.
Qed.

(** A run whose preconditions hold, with at least one chunk to the shared
    dimension and buffers that hold the two matrices, makes exactly the
    calls of the closed form. *)
Lemma Multiply_runs (fuel A_addr B_addr : nat) (A B : list Z)
    (A_rows width B_cols : nat) :
  (width mod 64 = 0)%nat -> (0 < width)%nat ->
  (B_cols mod 8 = 0)%nat ->
  (A_addr mod 64 = 0)%nat -> (B_addr mod 64 = 0)%nat ->
  (A_rows * width <= length A)%nat ->
  (width * B_cols <= length B)%nat ->
  (A_rows + width + B_cols < fuel)%nat ->
  Multiply fuel A_addr B_addr A B A_rows width B_cols
  = Done (Multiply_calls A B A_rows width B_cols).
Proof.
  intros Hw Hpos Hc HAa HBa HA HB Hfuel.
  unfold Multiply, sizeof_Integer.
  rewrite Hw, Hc, HAa, HBa. cbn [Nat.eqb assert bind].
  pose proof (Nat.Div0.div_exact width 64) as [_ Hdiv]. specialize (Hdiv Hw).
  pose proof (Nat.Div0.div_exact B_cols 8) as [_ Hdc]. specialize (Hdc Hc).
  assert (H : (8 * (0 + B_cols / 8) = B_cols)%nat) by lia.
  pose proof (strips_loop_runs A B A_rows width B_cols fuel (width / 64)
                ltac:(lia) ltac:(lia) ltac:(lia) HA Hdiv HB
                (B_cols / 8)%nat fuel 0%nat ltac:(lia) H) as Hrun.
  replace (8 * (width / 64) * 0)%nat with 0%nat in Hrun by lia.
  replace (8 * 0)%nat with 0%nat in Hrun by lia.
  exact Hrun.
Qed.

(** ** The order of the callbacks *)

Lemma map_flat_map {X Y W : Type} (g : Y -> W) (f : X -> list Y) (l : list X) :
  map g (flat_map f l) = flat_map (fun x => map g (f x)) l.
Proof.
  induction l as [|x l IH]; simpl.
  - reflexivity.
  - rewrite map_app, IH. reflexivity.
Qed.

Lemma Multiply_calls_positions (A B : list Z) (A_rows width B_cols : nat) :
  map call_position (Multiply_calls A B A_rows width B_cols)
  = positions A_rows B_cols.
Proof.
  unfold Multiply_calls, positions. rewrite map_flat_map.
  apply flat_map_ext. intros s. rewrite map_map. reflexivity.
Qed.

Lemma positions_length (R C : nat) : length (positions R C) = (R * (C / 8))%nat.
Proof.
  unfold positions.
  rewrite (flat_map_constant_length (c := R)).
  - rewrite length_seq. lia.
  - intros s _. rewrite length_map, length_seq. reflexivity.
Qed.

Lemma positions_In (R C r c : nat) :
  (C mod 8 = 0)%nat ->
  In (r, c) (positions R C) <-> (r < R)%nat /\ (c < C)%nat /\ (c mod 8 = 0)%nat.
Proof.
  intros HC. unfold positions. rewrite in_flat_map.
  pose proof (Nat.Div0.div_exact C 8) as [_ HdC]. specialize (HdC HC).
  split.
  - intros [s [Hs Hin]]. apply in_map_iff in Hin. destruct Hin as [r' [Heq Hr]].
    apply pair_equal_spec in Heq. destruct Heq as [-> <-].
    apply in_seq in Hs. apply in_seq in Hr.
    split; [lia|]. split; [lia|].
    replace (8 * s)%nat with (s * 8)%nat by lia. apply Nat.Div0.mod_mul.
  - intros [Hr [Hc Hm]].
    pose proof (Nat.Div0.div_exact c 8) as [_ Hdc]. specialize (Hdc Hm).
    exists (c / 8)%nat. split.
    + apply in_seq. lia.
    + apply in_map_iff. exists r. split.
      * f_equal. lia.
      * apply in_seq. lia.
Qed.

Lemma flat_map_NoDup {X Y : Type} (f : X -> list Y) (l : list X) :
  NoDup l ->
  (forall x, In x l -> NoDup (f x)) ->
  (forall x y a, In x l -> In y l -> x <> y -> In a (f x) -> ~ In a (f y)) ->
  NoDup (flat_map f l).
Proof.
  induction l as [|x l IH]; intros Hl Hf Hdis; simpl.
  - constructor.
  - inversion Hl as [|? ? Hx Hl']; subst.
    apply NoDup_app.
    + apply Hf. left. reflexivity.
    + apply IH; [exact Hl' | |].
      * intros y Hy. apply Hf. right. exact Hy.
      * intros y z a Hy Hz. apply Hdis; right; assumption.
    + intros a Ha Hin. apply in_flat_map in Hin. destruct Hin as [y [Hy Hay]].
      apply (Hdis x y a); [left; reflexivity | right; exact Hy | | exact Ha | exact Hay].
      intros ->. contradiction.
Qed.

Lemma positions_NoDup (R C : nat) : NoDup (positions R C).
Proof.
  unfold positions. apply flat_map_NoDup.
  - apply seq_NoDup.
  - intros s _. apply NoDup_map_NoDup_ForallPairs.
    + intros r r' _ _ Heq. inversion Heq. reflexivity.
    + apply seq_NoDup.
  - intros s s' [r c] _ _ Hne Hin Hin'.
    apply in_map_iff in Hin. destruct Hin as [r1 [Heq1 _]].
    apply in_map_iff in Hin'. destruct Hin' as [r2 [Heq2 _]].
    apply pair_equal_spec in Heq1. apply pair_equal_spec in Heq2. lia.
Qed.

Lemma bind_never_Done {X Y : Type} (m : outcome X) (k : X -> outcome Y) :
  (forall x, m = Done x -> forall y, k x <> Done y) ->
  forall y, bind m k <> Done y.
Proof.
  intros H y. destruct m as [x| | |]; simpl; try discriminate.
  apply (H x). reflexivity.
Qed.

(** Once [A_live] is past [A_end] the loop over the shared dimension
    cannot end: it runs until it leaves the buffer. *)
Lemma shared_loop_past_end (A B : list Z) :
  forall (n A_live A_end B_live : nat) (sums sums' : oct (list Z)),
    (A_end < A_live)%nat ->
    shared_loop A B n A_live A_end B_live sums <> Done sums'.
Proof.
  induction n as [|n IH]; intros A_live A_end B_live sums sums' Hlt; simpl.
  - discriminate.
  - destruct (Nat.eqb_spec A_live A_end); [lia|].
    apply bind_never_Done. intros a _.
    apply bind_never_Done. intros b _ y.
    apply IH. unfold sizeof_Integer. lia.
Qed.

(** With no chunk to the shared dimension the kernel still loads the
    first chunk and then starts the loop past its end: a row is never
    completed, whatever the buffers and the fuel. *)
Lemma Multiply_zero_width (fuel A_addr B_addr : nat) (A B : list Z)
    (A_rows B_cols : nat) (calls : list callback_call) :
  (0 < A_rows)%nat -> (0 < B_cols)%nat ->
  Multiply fuel A_addr B_addr A B A_rows 0 B_cols <> Done calls.
Proof.
  intros HR HC. unfold Multiply.
  repeat (apply bind_never_Done; intros ? _).
  intros calls'. cbn [Nat.div sizeof_Integer Nat.divmod fst].
  destruct fuel as [|fuel]; [discriminate|]. cbn [strips_loop].
  destruct (Nat.eqb_spec 0 B_cols); [lia|].
  apply bind_never_Done. intros strip Hstrip. exfalso. revert Hstrip.
  cbn [rows_loop]. destruct (Nat.ltb_spec 0 A_rows); [|lia].
  apply bind_never_Done. intros total Htotal. exfalso. revert Htotal.
  unfold row_total.
  apply bind_never_Done. intros a _.
  apply bind_never_Done. intros b _.
  apply bind_never_Done. intros sums Hsums. exfalso. revert Hsums.
  apply shared_loop_past_end. unfold sizeof_Integer. lia.
Qed.

(** C2, as stated, fails: with [width = 0] (a multiple of 64),
    [A_rows = 1] and [B_cols = 8], on the empty buffers of a 1 x 0 and a
    0 x 8 matrix, the callback is not invoked 1 * (8/8) times; the run
    reads outside A before any callback. *)
Lemma Multiply_callback_count_fails_at_zero_width :
  ~ (forall (A_addr B_addr : nat) (A B : list Z) (R width C : nat),
        (C mod 8 = 0)%nat -> (width mod 64 = 0)%nat ->
        (A_addr mod 64 = 0)%nat -> (B_addr mod 64 = 0)%nat ->
        length A = (R * width)%nat -> length B = (width * C)%nat ->
        exists fuel calls,
          Multiply fuel A_addr B_addr A B R width C = Done calls
          /\ length calls = (R * (C / 8))%nat).
Proof.
  intros H.
  destruct (H 0 0 [] [] 1 0 8)%nat as [fuel [calls [Hrun _]]];
    try reflexivity.
  revert Hrun. apply Multiply_zero_width; lia.
Qed.

(** C2 (amended). For every call to the 8-bit Multiply with [A_rows = R]
    and [B_cols = C] whose preconditions hold (C a multiple of 8, width a
    positive multiple of 64, aligned buffers that hold the two matrices),
    the callback is invoked exactly [R * (C/8)] times, once for every pair
    (row index, strip start), the strips 0, 8, 16, ... in ascending order
    outermost and the rows 0, 1, ..., R-1 in ascending order within. *)
Theorem Multiply_callback_order :
  forall (fuel A_addr B_addr : nat) (A B : list Z) (R width C : nat),
    (C mod 8 = 0)%nat ->
    (width mod 64 = 0)%nat -> (0 < width)%nat ->
    (A_addr mod 64 = 0)%nat -> (B_addr mod 64 = 0)%nat ->
    (R * width <= length A)%nat -> (width * C <= length B)%nat ->
    (R + width + C < fuel)%nat ->
    exists calls,
      Multiply fuel A_addr B_addr A B R width C = Done calls
      /\ length calls = (R * (C / 8))%nat
      /\ map call_position calls = positions R C
      /\ NoDup (map call_position calls)
      /\ (forall r c, In (r, c) (map call_position calls)
                      <-> (r < R)%nat /\ (c < C)%nat /\ (c mod 8 = 0)%nat).
Proof.
  intros fuel A_addr B_addr A B R width C HC Hw Hpos HAa HBa HA HB Hfuel.
  exists (Multiply_calls A B R width C).
  pose proof (Multiply_calls_positions A B R width C) as Hp.
  split; [apply Multiply_runs; assumption|].
  split.
  { rewrite <- (length_map call_position), Hp. apply positions_length. }
  split; [exact Hp|].
  rewrite Hp. split.
  - apply positions_NoDup.
  - intros r c. apply positions_In. exact HC.
Qed.

(** ** Runs on concrete inputs *)

Lemma in127b_Forall (l : list Z) : forallb in127b l = true -> Forall in127 l.
Proof.
  intros H. apply Forall_forall. intros x Hx.
  rewrite forallb_forall in H. specialize (H x Hx).
  unfold in127b in H. unfold in127. lia.
Qed.


Lemma Multiply_callback_order_witness :
  exists calls,
    Multiply 100 0 0 example_A example_B 2 64 16 = Done calls
    /\ length calls = (2 * (16 / 8))%nat
    /\ map call_position calls = positions 2 16
    /\ NoDup (map call_position calls)
    /\ (forall r c, In (r, c) (map call_position calls)
                    <-> (r < 2)%nat /\ (c < 16)%nat /\ (c mod 8 = 0)%nat).
Proof.
  apply (Multiply_callback_order 100 0 0 example_A example_B 2 64 16);
    try reflexivity; apply Nat.leb_le; reflexivity.
Defined.

(** ** A zero operand *)

Lemma firstn_Forall {X : Type} (P : X -> Prop) (n : nat) (l : list X) :
  Forall P l -> Forall P (firstn n l).
Proof.
  intros H. revert n. induction H as [|x l Hx Hl IH]; intros [|n]; simpl;
    constructor; auto.
Qed.

Lemma skipn_Forall {X : Type} (P : X -> Prop) (n : nat) (l : list X) :
  Forall P l -> Forall P (skipn n l).
Proof.
  intros H. revert n. induction H as [|x l Hx Hl IH]; intros [|n]; simpl;
    try constructor; auto.
Qed.

Lemma slice_Forall {X : Type} (P : X -> Prop) (off len : nat) (l : list X) :
  Forall P l -> Forall P (slice off len l).
Proof. intros H. unfold slice. apply firstn_Forall, skipn_Forall, H. Qed.

Lemma oct_all_map {X Y : Type} (P : Y -> Prop) (f : X -> Y) (s : oct X) :
  (forall x, P (f x)) -> oct_all P (oct_map f s).
Proof. intros H. unfold oct_all, oct_list, oct_map. simpl. repeat constructor; apply H. Qed.

Lemma oct_all_map2 {X Y W : Type} (P : X -> Prop) (Q : Y -> Prop) (R : W -> Prop)
    (f : X -> Y -> W) (s : oct X) (t : oct Y) :
  (forall x y, P x -> Q y -> R (f x y)) ->
  oct_all P s -> oct_all Q t -> oct_all R (oct_map2 f s t).
Proof.
  intros H Hs Ht. unfold oct_all, oct_list in *. simpl in *.
  repeat match goal with
         | H : Forall _ (_ :: _) |- _ => inversion H; subst; clear H
         end.
  repeat constructor; apply H; assumption.
Qed.

Lemma abs_epi8_zero (a : list Z) : all0 a -> all0 (_mm512_abs_epi8 a).
Proof.
  intros H. unfold _mm512_abs_epi8. induction H as [|x a Hx Ha IH]; simpl.
  - constructor.
  - subst x. constructor; [reflexivity | exact IH].
Qed.

Lemma maddubs_zero_l (a : list Z) :
  all0 a -> forall b, all0 (_mm512_maddubs_epi16 a b).
Proof.
  induction a as [|x|x y a IH] using list_pair_ind; intros Ha b.
  - constructor.
  - constructor.
  - inversion Ha as [|? ? Hx Ha1]; subst. inversion Ha1 as [|? ? Hy Ha2]; subst.
    destruct b as [|b0 [|b1 b]]; try constructor.
    + reflexivity.
    + apply IH. exact Ha2.
Qed.

Lemma maddubs_zero_r (b : list Z) :
  all0 b -> forall a, all0 (_mm512_maddubs_epi16 a b).
Proof.
  induction b as [|x|x y b IH] using list_pair_ind; intros Hb a.
  - destruct a as [|a0 [|a1 a]]; constructor.
  - destruct a as [|a0 [|a1 a]]; constructor.
  - inversion Hb as [|? ? Hx Hb1]; subst. inversion Hb1 as [|? ? Hy Hb2]; subst.
    destruct a as [|a0 [|a1 a]]; try constructor.
    + unfold wrap8. simpl. rewrite !Z.mul_0_r. reflexivity.
    + apply IH. exact Hb2.
Qed.

Lemma mask_sub_zero (src : list Z) :
  all0 src -> forall k a b, all0 a -> all0 b ->
  all0 (_mm512_mask_sub_epi8 src k a b).
Proof.
  induction 1 as [|s src Hs Hsrc IH]; intros k a b Ha Hb.
  - constructor.
  - destruct k as [|m k]; [constructor|].
    destruct Ha as [|x a Hx Ha]; [constructor|].
    destruct Hb as [|y b Hy Hb]; [constructor|].
    simpl. constructor.
    + subst. destruct m; reflexivity.
    + apply IH; assumption.
Qed.

Lemma repeat_all0 (n : nat) : all0 (repeat 0 n).
Proof. induction n; simpl; constructor; auto. Qed.

Lemma sign_trick_zero_l (a b : list Z) : all0 a -> all0 (sign_trick a b).
Proof. intros Ha. unfold sign_trick. apply maddubs_zero_l, abs_epi8_zero, Ha. Qed.

Lemma sign_trick_zero_r (a b : list Z) : all0 b -> all0 (sign_trick a b).
Proof.
  intros Hb. unfold sign_trick. apply maddubs_zero_r, mask_sub_zero;
    try assumption. apply repeat_all0.
Qed.

Lemma adds_zero (s : list Z) : all0 s -> forall t, all0 t -> all0 (_mm512_adds_epi16 s t).
Proof.
  unfold _mm512_adds_epi16.
  induction 1 as [|x s Hx Hs IH]; intros t Ht.
  - constructor.
  - destruct Ht as [|y t Hy Ht]; simpl; constructor.
    + subst. reflexivity.
    + apply IH. exact Ht.
Qed.

Lemma madd_zero (s : list Z) : all0 s -> forall t, all0 (_mm512_madd_epi16 s t).
Proof.
  induction s as [|x|x y s IH] using list_pair_ind; intros Hs t.
  - constructor.
  - constructor.
  - inversion Hs as [|? ? Hx Hs1]; subst. inversion Hs1 as [|? ? Hy Hs2]; subst.
    destruct t as [|t0 [|t1 t]]; try constructor.
    + reflexivity.
    + apply IH. exact Hs2.
Qed.

Lemma hsum32_zero (r : list Z) : all0 r -> hsum32 r = 0.
Proof.
  induction 1 as [|x r Hx Hr IH]; simpl.
  - reflexivity.
  - rewrite IH. subst x. reflexivity.
Qed.

Lemma reduce_zero (sums : oct (list Z)) :
  oct_all all0 sums -> reduce sums = repeat 0 8.
Proof.
  intros H. unfold oct_all, oct_list in H.
  repeat match goal with
         | H : Forall _ (_ :: _) |- _ => inversion H; subst; clear H
         end.
  unfold reduce, Pack0123, PermuteSummer, oct_map, madd_epi16.
  cbn [o0 o1 o2 o3 o4 o5 o6 o7].
  rewrite !hsum32_zero by (apply madd_zero; assumption).
  reflexivity.
Qed.

Lemma shared_chunks_zero (A B : list Z) :
  all0 A \/ all0 B ->
  forall k A_live B_live sums,
    oct_all all0 sums -> oct_all all0 (shared_chunks A B k A_live B_live sums).
Proof.
  intros Hz. induction k as [|k IH]; intros A_live B_live sums Hs; simpl.
  - exact Hs.
  - apply IH.
    apply (oct_all_map2 all0 all0 all0);
      [intros x y Hx Hy; apply adds_zero; assumption | exact Hs |].
    destruct Hz as [HA | HB].
    + apply oct_all_map. intros b. apply sign_trick_zero_l, slice_Forall, HA.
    + unfold regs8, oct_all, oct_list, oct_map. simpl.
      repeat constructor; apply sign_trick_zero_r, slice_Forall, HB.
Qed.

Lemma row_chunks_zero (A B : list Z) (width simd_width B0_col r : nat) :
  all0 A \/ all0 B -> row_chunks A B width simd_width B0_col r = repeat 0 8.
Proof.
  intros Hz. unfold row_chunks. apply reduce_zero, shared_chunks_zero; [exact Hz|].
  destruct Hz as [HA | HB].
  - apply oct_all_map. intros b. apply sign_trick_zero_l, slice_Forall, HA.
  - unfold regs8, oct_all, oct_list, oct_map. simpl.
    repeat constructor; apply sign_trick_zero_r, slice_Forall, HB.
Qed.

(** C5. For every valid invocation of the 8-bit Multiply, if every
    element of the quantized A buffer is zero, or every element of the
    packed B buffer is zero, then every accumulator vector handed to the
    callback is all zeros (and the run makes its [R * (C/8)] calls). *)
Theorem Multiply_zero_operand :
  forall (fuel A_addr B_addr : nat) (A B : list Z) (R width C : nat),
    (C mod 8 = 0)%nat ->
    (width mod 64 = 0)%nat -> (0 < width)%nat ->
    (A_addr mod 64 = 0)%nat -> (B_addr mod 64 = 0)%nat ->
    (R * width <= length A)%nat -> (width * C <= length B)%nat ->
    (R + width + C < fuel)%nat ->
    Forall (fun x => x = 0) A \/ Forall (fun x => x = 0) B ->
    exists calls,
      Multiply fuel A_addr B_addr A B R width C = Done calls
      /\ length calls = (R * (C / 8))%nat
      /\ Forall (fun c => call_total c = repeat 0 8) calls.
Proof.
  intros fuel A_addr B_addr A B R width C HC Hw Hpos HAa HBa HA HB Hfuel Hz.
  exists (Multiply_calls A B R width C).
  split; [apply Multiply_runs; assumption|].
  split.
  { rewrite <- (length_map call_position), Multiply_calls_positions.
    apply positions_length. }
  unfold Multiply_calls. apply Forall_forall. intros c Hc.
  apply in_flat_map in Hc. destruct Hc as [s [_ Hc]].
  apply in_map_iff in Hc. destruct Hc as [r [<- _]].
  cbn [call_total]. apply row_chunks_zero. exact Hz.
Qed.

Lemma Multiply_zero_operand_witness :
  exists calls,
    Multiply 100 0 0 (repeat 0 128) example_B 2 64 16 = Done calls
    /\ length calls = (2 * (16 / 8))%nat
    /\ Forall (fun c => call_total c = repeat 0 8) calls.
Proof.
  apply (Multiply_zero_operand 100 0 0 (repeat 0 128) example_B 2 64 16);
    try reflexivity; try (apply Nat.leb_le; reflexivity).
  left. repeat constructor.
Defined.

(** ** The assertions of Multiply *)

Lemma bind_not_assert {X Y : Type} (m : outcome X) (k : X -> outcome Y) :
  m <> AssertionFailed -> (forall x, k x <> AssertionFailed) ->
  bind m k <> AssertionFailed.
Proof.
  intros Hm Hk. destruct m as [x| | |]; simpl;
    [apply Hk | contradiction | discriminate | discriminate].
Qed.

Lemma load_si512_not_assert (mem : list Z) (off : nat) :
  load_si512 mem off <> AssertionFailed.
Proof. unfold load_si512. destruct (_ <=? _)%nat; discriminate. Qed.

Lemma load8_not_assert (B : list Z) (B_live : nat) :
  load8 B B_live <> AssertionFailed.
Proof.
  unfold load8.
  repeat (apply bind_not_assert; [apply load_si512_not_assert | intros ?]).
  discriminate.
Qed.

Lemma shared_loop_not_assert (A B : list Z) :
  forall n A_live A_end B_live sums,
    shared_loop A B n A_live A_end B_live sums <> AssertionFailed.
Proof.
  induction n as [|n IH]; intros A_live A_end B_live sums; simpl.
  - discriminate.
  - destruct (A_live =? A_end)%nat; [discriminate|].
    apply bind_not_assert; [apply load_si512_not_assert | intros a].
    apply bind_not_assert; [apply load8_not_assert | intros b].
    apply IH.
Qed.

Lemma row_total_not_assert (A B : list Z) (width fuel simd_width B0_col r : nat) :
  row_total A B width fuel simd_width B0_col r <> AssertionFailed.
Proof.
  unfold row_total.
  apply bind_not_assert; [apply load_si512_not_assert | intros a].
  apply bind_not_assert; [apply load8_not_assert | intros b].
  apply bind_not_assert; [apply shared_loop_not_assert | intros sums].
  discriminate.
Qed.

Lemma rows_loop_not_assert (A B : list Z) (A_rows width B_cols fuel simd_width
    B0_col B0_colidx : nat) :
  forall n r,
    rows_loop A B A_rows width B_cols n fuel simd_width B0_col B0_colidx r
    <> AssertionFailed.
Proof.
  induction n as [|n IH]; intros r; simpl.
  - discriminate.
  - destruct (r <? A_rows)%nat; [|discriminate].
    apply bind_not_assert; [apply row_total_not_assert | intros total].
    apply bind_not_assert; [apply IH | intros rest]. discriminate.
Qed.

Lemma strips_loop_not_assert (A B : list Z) (A_rows width B_cols fuel simd_width : nat) :
  forall n B0_col B0_colidx,
    strips_loop A B A_rows width B_cols n fuel simd_width B0_col B0_colidx
    <> AssertionFailed.
Proof.
  induction n as [|n IH]; intros B0_col B0_colidx; simpl.
  - discriminate.
  - destruct (B0_colidx =? B_cols)%nat; [discriminate|].
    apply bind_not_assert; [apply rows_loop_not_assert | intros strip].
    apply bind_not_assert; [apply IH | intros rest]. discriminate.
Qed.

(** C7, as stated, fails in its last part: with [width = 0], [A_rows = 1]
    and [B_cols = 8] every precondition holds (0 is a multiple of 64, the
    buffers are aligned), yet the operation does not run to completion. *)
Lemma Multiply_completion_fails_at_zero_width :
  ~ (forall (A_addr B_addr : nat) (A B : list Z) (A_rows width B_cols : nat),
        (B_cols mod 8 = 0)%nat -> (width mod 64 = 0)%nat ->
        (A_addr mod 64 = 0)%nat -> (B_addr mod 64 = 0)%nat ->
        length A = (A_rows * width)%nat -> length B = (width * B_cols)%nat ->
        exists fuel calls,
          Multiply fuel A_addr B_addr A B A_rows width B_cols = Done calls).
Proof.
  intros H.
  destruct (H 0 0 [] [] 1 0 8)%nat as [fuel [calls Hrun]]; try reflexivity.
  revert Hrun. apply Multiply_zero_width; lia.
Qed.

(** C7 (amended). The 8-bit Multiply fails its precondition check exactly
    when B_cols is not a multiple of 8, or width is not a multiple of 64,
    or one of the operand buffers is not aligned to 64 bytes.  When the
    preconditions hold no assertion fires and, if moreover width is at
    least one register (64) and the buffers hold the two matrices, the
    operation runs to completion. *)
Theorem Multiply_precondition_checks :
  forall (fuel A_addr B_addr : nat) (A B : list Z) (A_rows width B_cols : nat),
    (Multiply fuel A_addr B_addr A B A_rows width B_cols = AssertionFailed
     <-> ((B_cols mod 8 <> 0)%nat \/ (width mod 64 <> 0)%nat
          \/ (A_addr mod 64 <> 0)%nat \/ (B_addr mod 64 <> 0)%nat))
    /\ ((B_cols mod 8 = 0)%nat -> (width mod 64 = 0)%nat ->
        (A_addr mod 64 = 0)%nat -> (B_addr mod 64 = 0)%nat ->
        (0 < width)%nat ->
        (A_rows * width <= length A)%nat -> (width * B_cols <= length B)%nat ->
        (A_rows + width + B_cols < fuel)%nat ->
        exists calls,
          Multiply fuel A_addr B_addr A B A_rows width B_cols = Done calls).
Proof.
  intros fuel A_addr B_addr A B A_rows width B_cols. split.
  - unfold Multiply, sizeof_Integer.
    destruct (Nat.eqb_spec (width mod 64) 0) as [Hw|Hw]; cbn [assert bind];
      [|split; [intros _; right; left; exact Hw | reflexivity]].
    destruct (Nat.eqb_spec (B_cols mod 8) 0) as [Hc|Hc]; cbn [assert bind];
      [|split; [intros _; left; exact Hc | reflexivity]].
    destruct (Nat.eqb_spec (A_addr mod 64) 0) as [Ha|Ha]; cbn [assert bind];
      [|split; [intros _; right; right; left; exact Ha | reflexivity]].
    destruct (Nat.eqb_spec (B_addr mod 64) 0) as [Hb|Hb]; cbn [assert bind];
      [|split; [intros _; right; right; right; exact Hb | reflexivity]].
    split.
    + intros H. exfalso. revert H. apply strips_loop_not_assert.
    + intros [H | [H | [H | H]]]; contradiction.
  - intros Hc Hw Ha Hb Hpos HA HB Hfuel.
    exists (Multiply_calls A B A_rows width B_cols).
    apply Multiply_runs; assumption.
Qed.

Lemma Multiply_precondition_checks_witness :
  (Multiply 100 0 0 example_A example_B 2 64 12 = AssertionFailed
   <-> ((12 mod 8 <> 0)%nat \/ (64 mod 64 <> 0)%nat
        \/ (0 mod 64 <> 0)%nat \/ (0 mod 64 <> 0)%nat))
  /\ exists calls, Multiply 100 0 0 example_A example_B 2 64 16 = Done calls.
Proof.
  split.
  - apply (Multiply_precondition_checks 100 0 0 example_A example_B 2 64 12).
  - apply (Multiply_precondition_checks 100 0 0 example_A example_B 2 64 16);
      try reflexivity; apply Nat.leb_le; reflexivity.
Defined.

(** ** One chunk is exact *)

Lemma slice_length {X : Type} (off len : nat) (l : list X) :
  (off + len <= length l)%nat -> length (slice off len l) = len.
Proof.
  intros H. unfold slice. rewrite length_firstn, length_skipn. lia.
Qed.









(** ** The quantizers *)

Lemma firstn_plus {X : Type} (a b : nat) (l : list X) :
  firstn (a + b) l = firstn a l ++ firstn b (skipn a l).
Proof.
  revert l. induction a as [|a IH]; intros l; simpl.
  - reflexivity.
  - destruct l as [|x l]; simpl.
    + rewrite firstn_nil. reflexivity.
    + rewrite IH. reflexivity.
Qed.

Lemma slice_app {X : Type} (off a b : nat) (l : list X) :
  slice off a l ++ slice (off + a) b l = slice off (a + b) l.
Proof.
  unfold slice. rewrite firstn_plus, skipn_skipn.
  replace (off + a)%nat with (a + off)%nat by lia. reflexivity.
Qed.

Lemma map2_repeat_r {X Y W : Type} (f : X -> Y -> W) (y : Y) (n : nat) :
  forall l : list X,
    (length l <= n)%nat -> map2 f l (repeat y n) = map (fun x => f x y) l.
Proof.
  induction n as [|n IH]; intros [|x l] Hl; simpl in *; try reflexivity; try lia.
  rewrite IH by lia. reflexivity.
Qed.

Lemma masked_lanes_all {X : Type} (a : list X) :
  length a = 16%nat -> masked_lanes 0xffff a = a.
Proof.
  intros H.
  do 17 (destruct a as [|? a]; [try discriminate H|]); [reflexivity|].
  discriminate H.
Qed.

Lemma loadu_ps_Done (lanes : nat) (mem : list float) (off : nat) (v : list float) :
  loadu_ps lanes mem off = Done v ->
  (off + lanes <= length mem)%nat /\ v = slice off lanes mem.
Proof.
  unfold loadu_ps. destruct (Nat.leb_spec (off + lanes) (length mem)).
  - intros H'. inversion H'. split; [assumption | reflexivity].
  - discriminate.
Qed.

Lemma QuantizerGrab_Done (mem : list float) (input : nat) (mult : float)
    (v : list Z) :
  avx512f.QuantizerGrab mem input (_mm512_set1_ps mult) = Done v ->
  (input + 16 <= length mem)%nat
  /\ v = map (fun x => cvtss_si32 (SFmul prec emax x mult)) (slice input 16 mem).
Proof.
  unfold avx512f.QuantizerGrab. intros H.
  apply bind_Done in H. destruct H as [w [Hw Hv]].
  apply loadu_ps_Done in Hw. destruct Hw as [Hb ->].
  inversion Hv. split; [exact Hb|].
  unfold avx512f.kernels_quantize, _mm512_cvtps_epi32, _mm512_mul_ps, _mm512_set1_ps.
  rewrite map2_repeat_r by (rewrite slice_length; lia).
  rewrite map_map. reflexivity.
Qed.

Lemma QuantizerGrab_runs (mem : list float) (input : nat) (mult : float) :
  (input + 16 <= length mem)%nat ->
  avx512f.QuantizerGrab mem input (_mm512_set1_ps mult)
  = Done (map (fun x => cvtss_si32 (SFmul prec emax x mult)) (slice input 16 mem)).
Proof.
  intros H.
  destruct (avx512f.QuantizerGrab mem input (_mm512_set1_ps mult)) as [v| | |] eqn:E.
  - apply QuantizerGrab_Done in E. destruct E as [_ ->]. reflexivity.
  - unfold avx512f.QuantizerGrab, loadu_ps in E.
    destruct (Nat.leb_spec (input + 16) (length mem)); [discriminate | lia].
  - unfold avx512f.QuantizerGrab, loadu_ps in E.
    destruct (Nat.leb_spec (input + 16) (length mem)); [discriminate | lia].
  - unfold avx512f.QuantizerGrab, loadu_ps in E.
    destruct (Nat.leb_spec (input + 16) (length mem)); [discriminate | lia].
Qed.

Lemma QuantizerGrab_not_assert (mem : list float) (input : nat) (reg : list float) :
  avx512f.QuantizerGrab mem input reg <> AssertionFailed.
Proof.
  unfold avx512f.QuantizerGrab, loadu_ps.
  destruct (_ <=? _)%nat; discriminate.
Qed.

(** The chunk the 8-bit loop stores for 16 floats. *)
Lemma store8_chunk (mult : float) (l : list float) :
  length l = 16%nat ->
  _mm512_mask_cvtsepi32_storeu_epi8 0xffff
    (_mm512_max_epi32
       (map (fun x => cvtss_si32 (SFmul prec emax x mult)) l)
       (_mm512_set1_epi32 (-127)))
  = map (quantize8 mult) l.
Proof.
  intros H.
  unfold _mm512_mask_cvtsepi32_storeu_epi8, _mm512_max_epi32, _mm512_set1_epi32.
  rewrite map2_repeat_r by (rewrite length_map; lia).
  rewrite masked_lanes_all by (rewrite !length_map; exact H).
  rewrite !map_map. reflexivity.
Qed.

Lemma store16_chunk (mult : float) (l : list float) :
  length l = 16%nat ->
  _mm512_mask_cvtsepi32_storeu_epi16 0xffff
    (map (fun x => cvtss_si32 (SFmul prec emax x mult)) l)
  = map (quantize16 mult) l.
Proof.
  intros H. unfold _mm512_mask_cvtsepi32_storeu_epi16.
  rewrite masked_lanes_all by (rewrite length_map; exact H).
  rewrite map_map. reflexivity.
Qed.


Lemma Quantize8_loop_runs (mem : list float) (mult : float) :
  forall (k n input : nat),
    (k < n)%nat -> (input + 16 * k <= length mem)%nat ->
    AVX512_8bit.Quantize_loop n mem (_mm512_set1_epi32 (-127))
      (_mm512_set1_ps mult) input (input + 16 * k)
    = Done (map (quantize8 mult) (slice input (16 * k) mem)).
Proof.
  induction k as [|k IH]; intros n input Hn Hb; (destruct n as [|n]; [lia|]);
    cbn [AVX512_8bit.Quantize_loop].
  - destruct (Nat.ltb_spec input (input + 16 * 0)); [lia | reflexivity].
  - destruct (Nat.ltb_spec input (input + 16 * S k)); [|lia].
    rewrite QuantizerGrab_runs by lia. cbn [bind].
    replace (input + 16 * S k)%nat with (input + 16 + 16 * k)%nat by lia.
    rewrite IH by lia. cbn [bind].
    rewrite store8_chunk by (apply slice_length; lia).
    rewrite <- map_app, slice_app. do 3 f_equal. lia.
Qed.

Lemma Quantize16_loop_runs (mem : list float) (mult : float) :
  forall (k n input : nat),
    (k < n)%nat -> (input + 16 * k <= length mem)%nat ->
    AVX512_16bit.Quantize_loop n mem (_mm512_set1_ps mult) input (input + 16 * k)
    = Done (map (quantize16 mult) (slice input (16 * k) mem)).
Proof.
  induction k as [|k IH]; intros n input Hn Hb; (destruct n as [|n]; [lia|]);
    cbn [AVX512_16bit.Quantize_loop].
  - destruct (Nat.eqb_spec input (input + 16 * 0)); [reflexivity | lia].
  - destruct (Nat.eqb_spec input (input + 16 * S k)); [lia|].
    rewrite QuantizerGrab_runs by lia. cbn [bind].
    replace (input + 16 * S k)%nat with (input + 16 + 16 * k)%nat by lia.
    rewrite IH by lia. cbn [bind].
    rewrite store16_chunk by (apply slice_length; lia).
    rewrite <- map_app, slice_app. do 3 f_equal. lia.
Qed.

Lemma Quantize8_loop_not_assert (mem : list float) (neg127 : list Z)
    (reg : list float) (end_ : nat) :
  forall n input,
    AVX512_8bit.Quantize_loop n mem neg127 reg input end_ <> AssertionFailed.
Proof.
  induction n as [|n IH]; intros input; simpl; [discriminate|].
  destruct (input <? end_)%nat; [|discriminate].
  apply bind_not_assert; [apply QuantizerGrab_not_assert | intros v].
  apply bind_not_assert; [apply IH | intros rest]. discriminate.
Qed.

Lemma Quantize16_loop_not_assert (mem : list float) (reg : list float) (end_ : nat) :
  forall n input,
    AVX512_16bit.Quantize_loop n mem reg input end_ <> AssertionFailed.
Proof.
  induction n as [|n IH]; intros input; simpl; [discriminate|].
  destruct (input =? end_)%nat; [discriminate|].
  apply bind_not_assert; [apply QuantizerGrab_not_assert | intros v].
  apply bind_not_assert; [apply IH | intros rest]. discriminate.
Qed.

Lemma Quantize8_runs (fuel input_addr : nat) (mem : list float) (mult : float)
    (size : nat) :
  (size mod 16 = 0)%nat -> (input_addr mod 64 = 0)%nat ->
  (size <= length mem)%nat -> (size < fuel)%nat ->
  AVX512_8bit.Quantize fuel input_addr mem mult size
  = Done (map (quantize8 mult) (firstn size mem)).
Proof.
  intros Hs Ha Hb Hf. unfold AVX512_8bit.Quantize.
  rewrite Hs, Ha. cbn [Nat.eqb assert bind].
  pose proof (Nat.Div0.div_exact size 16) as [_ Hd]. specialize (Hd Hs).
  rewrite Hd at 1.
  rewrite (Quantize8_loop_runs mem mult (size / 16) fuel 0) by lia.
  unfold slice. rewrite <- Hd. reflexivity.
Qed.

Lemma Quantize16_runs (fuel input_addr : nat) (mem : list float) (mult : float)
    (size : nat) :
  (size mod 16 = 0)%nat -> (input_addr mod 64 = 0)%nat ->
  (size <= length mem)%nat -> (size < fuel)%nat ->
  AVX512_16bit.Quantize fuel input_addr mem mult size
  = Done (map (quantize16 mult) (firstn size mem)).
Proof.
  intros Hs Ha Hb Hf. unfold AVX512_16bit.Quantize.
  rewrite Hs, Ha. cbn [Nat.eqb assert bind].
  pose proof (Nat.Div0.div_exact size 16) as [_ Hd]. specialize (Hd Hs).
  rewrite Hd at 1.
  rewrite (Quantize16_loop_runs mem mult (size / 16) fuel 0) by lia.
  unfold slice. rewrite <- Hd. reflexivity.
Qed.

Lemma Quantize8_assert (fuel input_addr : nat) (mem : list float) (mult : float)
    (size : nat) :
  AVX512_8bit.Quantize fuel input_addr mem mult size = AssertionFailed
  <-> ((size mod 16 <> 0)%nat \/ (input_addr mod 64 <> 0)%nat).
Proof.
  unfold AVX512_8bit.Quantize.
  destruct (Nat.eqb_spec (size mod 16) 0) as [Hs|Hs]; cbn [assert bind];
    [|split; [intros _; left; exact Hs | reflexivity]].
  destruct (Nat.eqb_spec (input_addr mod 64) 0) as [Ha|Ha]; cbn [assert bind];
    [|split; [intros _; right; exact Ha | reflexivity]].
  split.
  - intros H. exfalso. revert H. apply Quantize8_loop_not_assert.
  - intros [H | H]; contradiction.
Qed.

Lemma Quantize16_assert (fuel input_addr : nat) (mem : list float) (mult : float)
    (size : nat) :
  AVX512_16bit.Quantize fuel input_addr mem mult size = AssertionFailed
  <-> ((size mod 16 <> 0)%nat \/ (input_addr mod 64 <> 0)%nat).
Proof.
  unfold AVX512_16bit.Quantize.
  destruct (Nat.eqb_spec (size mod 16) 0) as [Hs|Hs]; cbn [assert bind];
    [|split; [intros _; left; exact Hs | reflexivity]].
  destruct (Nat.eqb_spec (input_addr mod 64) 0) as [Ha|Ha]; cbn [assert bind];
    [|split; [intros _; right; exact Ha | reflexivity]].
  split.
  - intros H. exfalso. revert H. apply Quantize16_loop_not_assert.
  - intros [H | H]; contradiction.
Qed.

(** C8, as stated, fails: a size of 16 is a multiple neither of 32 nor
    of 64, yet both variants of Quantize accept it (and quantize the 16
    floats). *)
Lemma Quantize_accepts_size_16 :
  ~ (forall (fuel input_addr : nat) (mem : list float) (mult : float) (size : nat),
        (size mod 32 <> 0)%nat ->
        AVX512_16bit.Quantize fuel input_addr mem mult size = AssertionFailed)
  /\ ~ (forall (fuel input_addr : nat) (mem : list float) (mult : float) (size : nat),
           (size mod 64 <> 0)%nat ->
           AVX512_8bit.Quantize fuel input_addr mem mult size = AssertionFailed).
Proof.
  split; intros H;
    specialize (H 5%nat 0%nat example_floats (float_of_Z 1) 16%nat);
    vm_compute in H; specialize (H ltac:(discriminate)); discriminate H.
Qed.

(** C8 (amended). Quantize requires, and its assertions check, that size
    is a multiple of 16 (the floats of one 512-bit register, which is the
    step of the loop) in the 16-bit and in the 8-bit variant alike, and
    that the float input is aligned to the 64 bytes of a register; when
    both hold, and the buffer holds [size] floats, every float is
    quantized. *)
Theorem Quantize_precondition_checks :
  forall (fuel input_addr : nat) (mem : list float) (mult : float) (size : nat),
    (AVX512_16bit.Quantize fuel input_addr mem mult size = AssertionFailed
     <-> ((size mod 16 <> 0)%nat \/ (input_addr mod 64 <> 0)%nat))
    /\ (AVX512_8bit.Quantize fuel input_addr mem mult size = AssertionFailed
        <-> ((size mod 16 <> 0)%nat \/ (input_addr mod 64 <> 0)%nat))
    /\ ((size mod 16 = 0)%nat -> (input_addr mod 64 = 0)%nat ->
        (size <= length mem)%nat -> (size < fuel)%nat ->
        AVX512_16bit.Quantize fuel input_addr mem mult size
        = Done (map (quantize16 mult) (firstn size mem))
        /\ AVX512_8bit.Quantize fuel input_addr mem mult size
           = Done (map (quantize8 mult) (firstn size mem))).
Proof.
  intros fuel input_addr mem mult size.
  split; [apply Quantize16_assert|].
  split; [apply Quantize8_assert|].
  intros Hs Ha Hb Hf.
  split; [apply Quantize16_runs | apply Quantize8_runs]; assumption.
Qed.

Lemma Quantize_precondition_checks_witness :
  (AVX512_16bit.Quantize 40 0 example_floats (float_of_Z 1) 24 = AssertionFailed
   <-> ((24 mod 16 <> 0)%nat \/ (0 mod 64 <> 0)%nat))
  /\ AVX512_8bit.Quantize 40 0 example_floats (float_of_Z 1) 16
     = Done (map (quantize8 (float_of_Z 1)) (firstn 16 example_floats)).
Proof.
  split.
  - apply (Quantize_precondition_checks 40 0 example_floats (float_of_Z 1) 24).
  - apply (Quantize_precondition_checks 40 0 example_floats (float_of_Z 1) 16);
      try reflexivity; apply Nat.leb_le; reflexivity.
Defined.

(** ** Rounding to the nearest integer *)

Lemma nearest_even_nonneg_exp (m : positive) (e : Z) :
  0 <= e -> nearest_even m e = Zpos m * 2 ^ e.
Proof.
  intros H. unfold nearest_even. destruct (Z.leb_spec 0 e); [reflexivity | lia].
Qed.

Lemma nearest_even_spec (m : positive) (e : Z) :
  e < 0 ->
  let d := 2 ^ (- e) in
  let r := nearest_even m e in
  0 < d
  /\ Zpos m / d <= r <= Zpos m / d + 1
  /\ (Zpos m mod d = 0 -> r = Zpos m / d)
  /\ 2 * Z.abs (r * d - Zpos m) <= d.
Proof.
  intros He d r.
  assert (Hd : 0 < d) by (apply Z.pow_pos_nonneg; lia).
  split; [exact Hd|].
  unfold r, nearest_even. destruct (Z.leb_spec 0 e); [lia|].
  fold d.
  pose proof (Z.div_mod (Zpos m) d ltac:(lia)) as Hdm.
  pose proof (Z.mod_pos_bound (Zpos m) d Hd) as Hrem.
  set (q := Zpos m / d) in *. set (rem := Zpos m mod d) in *.
  destruct (Z.ltb_spec (2 * rem) d); [|destruct (Z.ltb_spec d (2 * rem));
    [|destruct (Z.even q)]]; (split; [lia|]); (split; [intros; lia|]); nia.
Qed.

(** The sign of the float next to the magnitude its rounding works on. *)
Lemma F2Q_finite_nonneg_exp (s : bool) (m : positive) (e : Z) :
  0 <= e ->
  F2Q (S754_finite s m e) = inject_Z (cond_Zopp s (Zpos m) * 2 ^ e).
Proof. intros H. unfold F2Q. destruct (Z.leb_spec 0 e); [reflexivity | lia]. Qed.

Lemma F2Q_finite_neg_exp (s : bool) (m : positive) (e : Z) :
  e < 0 ->
  F2Q (S754_finite s m e) = Qmake (cond_Zopp s (Zpos m)) (Z.to_pos (2 ^ (- e)))
  /\ Zpos (Z.to_pos (2 ^ (- e))) = 2 ^ (- e).
Proof.
  intros H. unfold F2Q. destruct (Z.leb_spec 0 e); [lia|].
  split; [reflexivity|]. apply Z2Pos.id. apply Z.pow_pos_nonneg; lia.
Qed.

(** Rounding to nearest never crosses an integer: an integer below (above)
    the magnitude stays below (above) the rounded magnitude. *)
Lemma nearest_even_monotone (m : positive) (e k : Z) :
  ((inject_Z k <= F2Q (S754_finite false m e))%Q -> k <= nearest_even m e)
  /\ ((F2Q (S754_finite false m e) <= inject_Z k)%Q -> nearest_even m e <= k).
Proof.
  destruct (Z.leb_spec 0 e) as [He|He].
  - rewrite F2Q_finite_nonneg_exp, nearest_even_nonneg_exp by exact He.
    cbn [cond_Zopp]. rewrite <- !Zle_Qle. split; intros H; exact H.
  - destruct (F2Q_finite_neg_exp false m e He) as [-> Hpos].
    destruct (nearest_even_spec m e He) as [Hd [Hr [Hex Habs]]].
    cbn [cond_Zopp]. unfold Qle. cbn [Qnum Qden inject_Z]. rewrite Hpos.
    pose proof (Z.div_mod (Zpos m) (2 ^ (- e)) ltac:(lia)) as Hdm.
    pose proof (Z.mod_pos_bound (Zpos m) (2 ^ (- e)) Hd) as Hrem.
    set (d := 2 ^ (- e)) in *. set (r := nearest_even m e) in *.
    set (q := Zpos m / d) in *. set (rem := Zpos m mod d) in *.
    split; intros H.
    + assert (k <= q) by nia. lia.
    + destruct (Z.eq_dec rem 0) as [H0|H0].
      * rewrite (Hex H0). nia.
      * assert (q < k) by nia. lia.
Qed.

Lemma nearest_even_half (m : positive) (e : Z) (s : bool) :
  (Qabs (inject_Z (cond_Zopp s (nearest_even m e)) - F2Q (S754_finite s m e))
   <= 1 # 2)%Q.
Proof.
  destruct (Z.leb_spec 0 e) as [He|He].
  - rewrite F2Q_finite_nonneg_exp, nearest_even_nonneg_exp by exact He.
    assert (Heq : cond_Zopp s (Zpos m * 2 ^ e) = cond_Zopp s (Zpos m) * 2 ^ e)
      by (destruct s; cbn [cond_Zopp]; lia).
    rewrite Heq. unfold Qminus. rewrite Qplus_opp_r. discriminate.
  - destruct (F2Q_finite_neg_exp s m e He) as [-> Hpos].
    destruct (nearest_even_spec m e He) as [Hd [Hr [Hex Habs]]].
    unfold Qle, Qabs, Qminus, Qplus, Qopp, inject_Z. cbn [Qnum Qden].
    rewrite Pos.mul_1_l, Hpos.
    set (d := 2 ^ (- e)) in *. set (r := nearest_even m e) in *.
    destruct s; cbn [cond_Zopp]; lia.
Qed.

(** ** One lane of the 8-bit quantizer *)


(** A finite product that rounds into [-127, 127] is stored as rounded. *)
Lemma quantize8_finite (mult x : float) (s : bool) (m : positive) (e : Z) :
  SFmul prec emax x mult = S754_finite s m e ->
  let r := cond_Zopp s (nearest_even m e) in
  (-127 <= r <= 127 -> quantize8 mult x = r)
  /\ (127 <= r <= 2147483647 -> quantize8 mult x = 127)
  /\ (r <= -127 -> quantize8 mult x = -127)
  /\ (2147483647 < r -> quantize8 mult x = -127).
Proof.
  intros Hp r. unfold quantize8. rewrite Hp. cbn [cvtss_si32]. fold r.
  change (wrap32 (-127)) with (-127). unfold int32_indefinite, sat8.
  destruct (Z.leb_spec (-2147483648) r), (Z.leb_spec r 2147483647);
    cbn [andb]; repeat split; intros; lia.
Qed.


(** ** The 8-bit Quantize *)




(** ** Rounding to single precision *)

Lemma shr_1_inv (M k : Z) (mrs : shr_record) :
  shr_inv M k mrs -> shr_inv M (k + 1) (shr_1 mrs).
Proof.
  destruct mrs as [m r s]. intros [Hk [Hm [t [H2 [Ht Hs]]]]].
  cbn [shr_m shr_r shr_s] in *.
  assert (Hp : 2 ^ (k + 1) = 2 * 2 ^ k)
    by (rewrite Z.pow_add_r by lia; change (2 ^ 1) with 2; lia).
  assert (Hpos : 0 < 2 ^ k) by (apply Z.pow_pos_nonneg; lia).
  unfold shr_inv. split; [lia|].
  assert (Hst : forall m1 b : Z,
             (b = 0 \/ b = 1) -> m = 2 * m1 + b ->
             exists t',
               2 * M = (2 * m1 + b) * (2 * 2 ^ k) + t'
               /\ 0 <= t' < 2 * 2 ^ k
               /\ (if r || s then t' <> 0 else t' = 0)).
  { intros m1 b Hb Hmb. exists ((if r then 1 else 0) * 2 ^ k + t).
    split; [subst m; lia|]. split; [destruct r; lia|].
    destruct r, s; cbn [orb]; lia. }
  rewrite Hp.
  destruct m as [|p|p]; [| destruct p as [p|p|] |lia];
    cbn [shr_1 shr_m shr_r shr_s]; (split; [lia|]).
  - destruct (Hst 0 0) as [t' Ht']; [lia | lia | exists t'; exact Ht'].
  - destruct (Hst (Zpos p) 1) as [t' Ht']; [lia | lia | exists t'; exact Ht'].
  - destruct (Hst (Zpos p) 0) as [t' Ht']; [lia | lia |].
    exists t'. rewrite Z.add_0_r in Ht'. exact Ht'.
  - destruct (Hst 0 1) as [t' Ht']; [lia | lia | exists t'; exact Ht'].
Qed.

Lemma iter_pos_shr_inv (M : Z) (p : positive) :
  forall (k : Z) (mrs : shr_record),
    shr_inv M k mrs -> shr_inv M (k + Zpos p) (iter_pos shr_1 p mrs).
Proof.
  induction p as [p IH|p IH|]; intros k mrs H; cbn [iter_pos].
  - replace (k + Zpos p~1) with (k + 1 + Zpos p + Zpos p) by lia.
    apply IH, IH, shr_1_inv, H.
  - replace (k + Zpos p~0) with (k + Zpos p + Zpos p) by lia.
    apply IH, IH, H.
  - apply shr_1_inv, H.
Qed.

(** Rounding the shifted mantissa to nearest even. *)
Lemma round_nearest_even_spec (M k : Z) (mrs : shr_record) :
  shr_inv M k mrs ->
  let m := round_nearest_even (shr_m mrs) (loc_of_shr_record mrs) in
  0 <= m
  /\ 2 * Z.abs (m * 2 ^ k - M) <= 2 ^ k
  /\ (k = 0 -> m = M)
  /\ (forall c, c * 2 ^ k <= M -> c <= m)
  /\ (forall c, M <= c * 2 ^ k -> m <= c)
  /\ shr_m mrs <= m <= shr_m mrs + 1.
Proof.
  destruct mrs as [m0 r s]. intros [Hk [Hm [t [H2 [Ht Hs]]]]] m.
  cbn [shr_m shr_r shr_s] in *.
  assert (Hpos : 0 < 2 ^ k) by (apply Z.pow_pos_nonneg; lia).
  set (P := 2 ^ k) in *.
  assert (H1 : k = 0 -> P = 1) by (intros ->; reflexivity).
  unfold m, loc_of_shr_record, round_nearest_even.
  destruct r, s; [| destruct (Z.even m0) | |];
    (split; [lia|]); (split; [nia|]); (split; [intros Hk0; specialize (H1 Hk0); nia|]);
    (split; [intros c Hc; nia|]); (split; [intros c Hc; nia|]); lia.
Qed.

Lemma digits2_pos_spec (p : positive) :
  2 ^ (Zpos (digits2_pos p) - 1) <= Zpos p < 2 ^ Zpos (digits2_pos p).
Proof.
  induction p as [p IH|p IH|]; cbn [digits2_pos].
  - rewrite Pos2Z.inj_succ.
    replace (Z.succ (Zpos (digits2_pos p)) - 1) with (Z.succ (Zpos (digits2_pos p) - 1)) by lia.
    rewrite !Z.pow_succ_r by lia. lia.
  - rewrite Pos2Z.inj_succ.
    replace (Z.succ (Zpos (digits2_pos p)) - 1) with (Z.succ (Zpos (digits2_pos p) - 1)) by lia.
    rewrite !Z.pow_succ_r by lia. lia.
  - simpl. lia.
Qed.

Lemma shr_nonpos (mrs : shr_record) (e n : Z) :
  n <= 0 -> shr mrs e n = (mrs, e).
Proof. intros H. destruct n; [reflexivity | lia | reflexivity]. Qed.

Lemma shr_pos (M : Z) (mrs : shr_record) (e n : Z) :
  0 < n -> shr_inv M 0 mrs ->
  exists mrs', shr mrs e n = (mrs', e + n) /\ shr_inv M n mrs'.
Proof.
  intros H Hinv. destruct n as [|p|p]; try lia.
  exists (iter_pos shr_1 p mrs). split; [reflexivity|].
  apply (iter_pos_shr_inv M p 0 mrs Hinv).
Qed.

Lemma shr_inv_exact (M : Z) :
  0 <= M -> shr_inv M 0 (shr_record_of_loc M loc_Exact).
Proof.
  intros H. unfold shr_inv. cbn [shr_record_of_loc shr_m shr_r shr_s].
  split; [lia|]. split; [lia|]. exists 0. split; [|split]; simpl; lia.
Qed.

Lemma fexp32 (e : Z) : fexp prec emax e = Z.max (e - 24) (-149).
Proof. reflexivity. Qed.

Lemma digits_le (q : positive) (b : Z) :
  0 <= b -> Zpos q < 2 ^ b -> Zpos (digits2_pos q) <= b.
Proof.
  intros Hb Hq. pose proof (digits2_pos_spec q) as [Hlo _].
  assert (2 ^ (Zpos (digits2_pos q) - 1) < 2 ^ b) by lia.
  apply Z.pow_lt_mono_r_iff in H; lia.
Qed.

(** The single-precision rounding of [M * 2^E], for a magnitude below
    128: the result is [N * 2^E] with [N] the nearest multiple of [2^k]
    to [M], where [k] is the number of bits dropped. *)
Lemma binary_round_aux_spec (sx : bool) (M : positive) (E : Z) :
  Zpos (digits2_pos M) + E <= 7 ->
  exists N k : Z,
    0 <= k /\ 0 <= N
    /\ (k = 0 \/ E + k <= -17)
    /\ 2 * Z.abs (N - Zpos M) <= 2 ^ k
    /\ (k = 0 -> N = Zpos M)
    /\ (forall c, c * 2 ^ k <= Zpos M -> c * 2 ^ k <= N)
    /\ (forall c, Zpos M <= c * 2 ^ k -> N <= c * 2 ^ k)
    /\ ((N = 0
         /\ binary_round_aux prec emax sx (Zpos M) E loc_Exact = S754_zero sx)
        \/ exists m3 e3,
             binary_round_aux prec emax sx (Zpos M) E loc_Exact
             = S754_finite sx m3 e3
             /\ E <= e3 /\ N = Zpos m3 * 2 ^ (e3 - E)).
Proof.
  intros HD.
  pose proof (digits2_pos_spec M) as [HMlo HMhi].
  set (d := Zpos (digits2_pos M)) in *.
  assert (Hd : 1 <= d) by (unfold d; lia).
  unfold binary_round_aux, shr_fexp. cbn [Zdigits2]. fold d.
  rewrite fexp32.
  set (n := Z.max (d + E - 24) (-149) - E).
  destruct (Z_le_gt_dec n 0) as [Hn|Hn].
  - (* no bit is dropped *)
    rewrite shr_nonpos by exact Hn.
    cbn [shr_record_of_loc shr_m loc_of_shr_record round_nearest_even Zdigits2].
    fold d. rewrite fexp32. fold n. rewrite shr_nonpos by exact Hn.
    cbn [shr_record_of_loc shr_m].
    destruct (Z.leb_spec E (emax - prec)) as [HE|HE];
      [|unfold emax, prec in HE; lia].
    exists (Zpos M), 0.
    split; [lia|]. split; [lia|]. split; [left; reflexivity|].
    split; [change (2 ^ 0) with 1; lia|]. split; [reflexivity|].
    split; [intros c Hc; exact Hc|]. split; [intros c Hc; exact Hc|].
    right. exists M, E. split; [reflexivity|]. split; [lia|].
    rewrite Z.sub_diag. simpl. lia.
  - (* [n] bits are dropped *)
    destruct (shr_pos (Zpos M) (shr_record_of_loc (Zpos M) loc_Exact) E n
                ltac:(lia) (shr_inv_exact (Zpos M) ltac:(lia)))
      as [mrs' [Hshr Hinv]].
    rewrite Hshr.
    pose proof (round_nearest_even_spec (Zpos M) n mrs' Hinv) as Hr.
    cbv zeta in Hr.
    set (m := round_nearest_even (shr_m mrs') (loc_of_shr_record mrs')) in *.
    destruct Hr as [Hm0 [Habs [_ [Hlow [Hupp Hm01]]]]].
    assert (Hpn : 0 < 2 ^ n) by (apply Z.pow_pos_nonneg; lia).
    assert (He' : E + n = Z.max (d + E - 24) (-149)) by (unfold n; lia).
    assert (He17 : E + n <= -17) by lia.
    (* the shifted mantissa has at most 24 bits *)
    assert (Hm24 : m <= 2 ^ 24).
    { assert (shr_m mrs' < 2 ^ 24); [|lia].
      destruct Hinv as [_ [Hs0 [t [H2 [Ht _]]]]].
      destruct (Z_lt_ge_dec (shr_m mrs') (2 ^ 24)) as [Hlt|Hge]; [exact Hlt|].
      exfalso.
      assert (H24 : 2 ^ d <= 2 ^ (24 + n)) by (apply Z.pow_le_mono_r; lia).
      rewrite Z.pow_add_r in H24 by lia.
      destruct (shr_r mrs'); nia. }
    exists (m * 2 ^ n), n.
    split; [lia|]. split; [nia|]. split; [right; exact He17|].
    split; [exact Habs|]. split; [lia|].
    split; [intros c Hc; specialize (Hlow c Hc); nia|].
    split; [intros c Hc; specialize (Hupp c Hc); nia|].
    destruct m as [|q|q] eqn:Em; [| |lia].
    + (* rounded to zero *)
      left. split; [lia|].
      cbn [Zdigits2 shr_record_of_loc]. rewrite fexp32.
      rewrite shr_nonpos by lia. reflexivity.
    + right.
      destruct (Z_lt_ge_dec (Zpos q) (2 ^ 24)) as [Hlt|Hge].
      * pose proof (digits_le q 24 ltac:(lia) Hlt) as Hdq.
        cbn [Zdigits2 shr_record_of_loc]. rewrite fexp32.
        rewrite shr_nonpos by lia. cbn [shr_m].
        destruct (Z.leb_spec (E + n) (emax - prec)) as [HE|HE];
          [|unfold emax, prec in HE; lia].
        exists q, (E + n). split; [reflexivity|]. split; [lia|].
        replace (E + n - E) with n by lia. reflexivity.
      * assert (Hq : q = 16777216%positive) by (change (2 ^ 24) with 16777216 in *; lia).
        subst q.
        cbn [Zdigits2 shr_record_of_loc digits2_pos Pos.succ]. rewrite fexp32.
        replace (Z.max (25 + (E + n) - 24) (-149) - (E + n)) with 1 by lia.
        cbn [shr iter_pos shr_1 shr_m].
        destruct (Z.leb_spec (E + n + 1) (emax - prec)) as [HE|HE];
          [|unfold emax, prec in HE; lia].
        exists 8388608%positive, (E + n + 1). split; [reflexivity|]. split; [lia|].
        replace (E + n + 1 - E) with (n + 1) by lia.
        rewrite Z.pow_add_r by lia. change (2 ^ 1) with 2. lia.
Qed.

(** ** Powers of two in Q *)

Lemma two_neq_0 : ~ (inject_Z 2 == 0)%Q.
Proof. intros H. discriminate H. Qed.

Lemma pow2_pos (e : Z) : (0 < pow2 e)%Q.
Proof. apply Qpower_0_lt. reflexivity. Qed.

Lemma pow2_add (a b : Z) : (pow2 (a + b) == pow2 a * pow2 b)%Q.
Proof. apply Qpower_plus, two_neq_0. Qed.

Lemma pow2_inject (a : Z) : 0 <= a -> (inject_Z (2 ^ a) == pow2 a)%Q.
Proof. intros H. apply Zpower_Qpower, H. Qed.

Lemma pow2_le (a b : Z) : a <= b -> (pow2 a <= pow2 b)%Q.
Proof. intros H. apply Qpower_le_compat_l; [exact H | discriminate]. Qed.

Lemma pow2_lt_inv (a b : Z) : (pow2 a < pow2 b)%Q -> a < b.
Proof. intros H. apply (Qpower_lt_compat_l_inv (inject_Z 2)); [exact H | reflexivity]. Qed.

Lemma scaled_le (a b e : Z) :
  (inject_Z a * pow2 e <= inject_Z b * pow2 e)%Q <-> a <= b.
Proof. rewrite Qmult_le_r by apply pow2_pos. rewrite <- Zle_Qle. reflexivity. Qed.

Lemma F2Q_pow2 (s : bool) (m : positive) (e : Z) :
  (F2Q (S754_finite s m e) == inject_Z (cond_Zopp s (Zpos m)) * pow2 e)%Q.
Proof.
  destruct (Z.leb_spec 0 e) as [He|He].
  - rewrite F2Q_finite_nonneg_exp by exact He.
    rewrite inject_Z_mult, pow2_inject by exact He. reflexivity.
  - destruct (F2Q_finite_neg_exp s m e He) as [-> Hpos].
    assert (Hinv : (pow2 e == / pow2 (- e))%Q).
    { unfold pow2. rewrite <- Qpower_opp.
      replace (- - e) with e by lia. reflexivity. }
    rewrite Qmake_Qdiv, Hpos, pow2_inject, Hinv by lia. reflexivity.
Qed.

Lemma Qabs_scaled (z e : Z) :
  (Qabs (inject_Z z * pow2 e) == inject_Z (Z.abs z) * pow2 e)%Q.
Proof.
  rewrite Qabs_Qmult, (Qabs_pos (pow2 e)) by apply Qlt_le_weak, pow2_pos.
  reflexivity.
Qed.

Lemma cond_Zopp_mul (sx sy : bool) (a b : Z) :
  cond_Zopp sx a * cond_Zopp sy b = cond_Zopp (xorb sx sy) (a * b).
Proof. destruct sx, sy; cbn [cond_Zopp xorb]; lia. Qed.

Lemma abs_cond_Zopp (s : bool) (a : Z) : Z.abs (cond_Zopp s a) = Z.abs a.
Proof. destruct s; cbn [cond_Zopp]; lia. Qed.

(** The single-precision product of two finite floats whose exact
    product has magnitude at most 126.5: it is finite, of magnitude at
    most 126.5, and within 2^-18 of the exact product. *)
Lemma SFmul_error (x y : float) :
  is_finite x = true -> is_finite y = true ->
  (Qabs (F2Q x * F2Q y) <= 253 # 2)%Q ->
  let p := SFmul prec emax x y in
  is_finite p = true
  /\ (Qabs (F2Q p) <= 253 # 2)%Q
  /\ (Qabs (F2Q p - F2Q x * F2Q y) <= 1 # 262144)%Q.
Proof.
  intros Hx Hy HV p.
  assert (Hzero : forall s : bool,
             (F2Q x * F2Q y == 0)%Q -> p = S754_zero s ->
             is_finite p = true
             /\ (Qabs (F2Q p) <= 253 # 2)%Q
             /\ (Qabs (F2Q p - F2Q x * F2Q y) <= 1 # 262144)%Q).
  { intros s H0 ->. cbn [is_finite F2Q]. rewrite H0.
    split; [reflexivity|]. split; discriminate. }
  destruct x as [sx|sx| |sx mx ex]; try discriminate Hx;
    destruct y as [sy|sy| |sy my ey]; try discriminate Hy;
    try (apply (Hzero (xorb sx sy)); [cbn [F2Q]; ring | reflexivity]).
  clear Hzero Hx Hy.
  set (M := (mx * my)%positive). set (E := ex + ey). set (s := xorb sx sy).
  assert (HVeq : (F2Q (S754_finite sx mx ex) * F2Q (S754_finite sy my ey)
                  == inject_Z (cond_Zopp s (Zpos M)) * pow2 E)%Q).
  { rewrite !F2Q_pow2. unfold E, s, M. rewrite pow2_add, Pos2Z.inj_mul.
    rewrite <- cond_Zopp_mul, inject_Z_mult. ring. }
  rewrite HVeq in HV |- *.
  rewrite Qabs_scaled, abs_cond_Zopp in HV. cbn [Z.abs] in HV.
  (* the magnitude is below 2^7 *)
  pose proof (digits2_pos_spec M) as [HMlo _].
  assert (HD : Zpos (digits2_pos M) + E <= 7).
  { assert (Hlt : (pow2 (Zpos (digits2_pos M) - 1 + E) < pow2 7)%Q).
    { rewrite pow2_add, <- pow2_inject by lia.
      eapply Qle_lt_trans; [apply scaled_le; exact HMlo|].
      eapply Qle_lt_trans; [exact HV|]. reflexivity. }
    apply pow2_lt_inv in Hlt. lia. }
  destruct (binary_round_aux_spec s M E HD)
    as [N [k [Hk [HN [Hk17 [Herr [Hk0 [_ [Hupp Hres]]]]]]]]].
  assert (Hp : is_finite p = true
               /\ (F2Q p == inject_Z (cond_Zopp s N) * pow2 E)%Q).
  { unfold p. cbn [SFmul]. fold M E s.
    destruct Hres as [[HN0 ->] | [m3 [e3 [-> [He3 HN3]]]]].
    - split; [reflexivity|]. subst N. cbn [F2Q].
      destruct s; change (inject_Z (cond_Zopp _ 0)) with 0%Q;
        rewrite Qmult_0_l; reflexivity.
    - split; [reflexivity|]. rewrite F2Q_pow2.
      replace e3 with (e3 - E + E) at 1 by lia.
      rewrite pow2_add, <- pow2_inject by lia.
      rewrite Qmult_assoc, <- inject_Z_mult.
      assert (Hc : cond_Zopp s (Zpos m3) * 2 ^ (e3 - E) = cond_Zopp s N)
        by (subst N; destruct s; cbn [cond_Zopp]; lia).
      rewrite Hc. reflexivity. }
  destruct Hp as [Hfin HpQ].
  split; [exact Hfin|]. rewrite HpQ.
  (* the pieces below are scaled by 2^E *)
  assert (Hdiff : (inject_Z (cond_Zopp s N) * pow2 E
                   - inject_Z (cond_Zopp s (Zpos M)) * pow2 E
                   == inject_Z (cond_Zopp s (N - Zpos M)) * pow2 E)%Q).
  { assert (Hc : cond_Zopp s (N - Zpos M) = cond_Zopp s N - cond_Zopp s (Zpos M))
      by (destruct s; cbn [cond_Zopp]; lia).
    rewrite Hc. unfold Zminus. rewrite inject_Z_plus, inject_Z_opp. ring. }
  rewrite Hdiff, !Qabs_scaled, !abs_cond_Zopp.
  rewrite (Z.abs_eq N) by exact HN.
  destruct Hk17 as [-> | Hk17].
  - (* exact *)
    rewrite (Hk0 eq_refl). split; [exact HV|].
    rewrite Z.sub_diag. cbn [Z.abs]. rewrite Qmult_0_l. discriminate.
  - assert (HE1 : 0 <= - 1 - E - k) by lia.
    split.
    + (* 126.5 is a multiple of 2^(E+k): rounding does not cross it *)
      assert (Hcap : Zpos M <= 253 * 2 ^ (- 1 - E - k) * 2 ^ k).
      { rewrite <- Z.mul_assoc, <- Z.pow_add_r by lia.
        replace (- 1 - E - k + k) with (- 1 - E) by lia.
        apply (scaled_le _ _ E).
        eapply Qle_trans; [exact HV|].
        rewrite inject_Z_mult, pow2_inject by lia.
        rewrite <- Qmult_assoc, <- pow2_add.
        replace (- 1 - E + E) with (- 1) by lia. discriminate. }
      specialize (Hupp _ Hcap).
      eapply Qle_trans; [apply scaled_le; exact Hupp|].
      rewrite <- Z.mul_assoc, <- Z.pow_add_r by lia.
      replace (- 1 - E - k + k) with (- 1 - E) by lia.
      rewrite inject_Z_mult, pow2_inject by lia.
      rewrite <- Qmult_assoc, <- pow2_add.
      replace (- 1 - E + E) with (- 1) by lia. discriminate.
    + (* half a unit in the last place, at most 2^-18 *)
      apply (Qmult_le_l _ _ (inject_Z 2)); [reflexivity|].
      rewrite Qmult_assoc, <- inject_Z_mult.
      eapply Qle_trans; [apply scaled_le; exact Herr|].
      rewrite pow2_inject, <- pow2_add by lia.
      eapply Qle_trans; [apply (pow2_le _ (-17)); lia|]. discriminate.
Qed.

(** ** Quantize, then dequantize *)

Lemma F2Q_abs (s : bool) (m : positive) (e : Z) :
  (Qabs (F2Q (S754_finite s m e)) == F2Q (S754_finite false m e))%Q.
Proof.
  unfold F2Q. destruct (Z.leb_spec 0 e) as [He|He].
  - assert (0 < 2 ^ e) by (apply Z.pow_pos_nonneg; lia).
    unfold Qabs, Qeq, inject_Z. cbn [Qnum Qden].
    destruct s; cbn [cond_Zopp]; nia.
  - unfold Qabs, Qeq. cbn [Qnum Qden]. destruct s; cbn [cond_Zopp]; lia.
Qed.

(** C4, as stated, fails: for x = 9786709 * 2^-23 and multiplier 3 the
    scaled value is below 126.5, the single-precision product is 3.5 and
    is quantized to 4; 4/3 is farther from x than 0.5/3. *)
Lemma dequantize_bound_fails :
  ~ (forall x mult : float,
        valid_binary prec emax x = true ->
        valid_binary prec emax mult = true ->
        (Qabs (F2Q x * F2Q mult) <= 253 # 2)%Q ->
        (Qabs (inject_Z (quantize8 mult x) / F2Q mult - F2Q x)
         <= (1 # 2) / F2Q mult)%Q).
Proof.
  intros H.
  specialize (H example_x example_mult eq_refl eq_refl).
  assert (Hpre : (Qabs (F2Q example_x * F2Q example_mult) <= 253 # 2)%Q)
    by (vm_compute; discriminate).
  specialize (H Hpre). vm_compute in H. apply H. reflexivity.
Qed.

(** The quantized value of a finite product of magnitude at most 126.5
    is the product rounded to the nearest integer: nothing is clamped. *)
Lemma quantize8_within_half (x mult : float) :
  let p := SFmul prec emax x mult in
  is_finite p = true ->
  (Qabs (F2Q p) <= 253 # 2)%Q ->
  (Qabs (inject_Z (quantize8 mult x) - F2Q p) <= 1 # 2)%Q.
Proof.
  intros p Hfin Hp.
  destruct p as [sz|si| |s m e] eqn:Ep; try discriminate Hfin.
  - unfold quantize8. fold p. rewrite Ep. vm_compute. discriminate.
  - destruct (quantize8_finite mult x s m e Ep) as [Hmid _].
    rewrite F2Q_abs in Hp.
    destruct (nearest_even_monotone m e 127) as [_ Hle].
    assert (H127 : (F2Q (S754_finite false m e) <= inject_Z 127)%Q).
    { eapply Qle_trans; [exact Hp|]. vm_compute. discriminate. }
    specialize (Hle H127).
    assert (Hnn : 0 <= nearest_even m e).
    { destruct (nearest_even_monotone m e 0) as [Hge _]. apply Hge.
      rewrite <- (F2Q_abs false). apply Qabs_nonneg. }
    rewrite Hmid by (destruct s; cbn [cond_Zopp]; lia).
    apply nearest_even_half.
Qed.

(** C4 (amended). For every finite float x and finite positive multiplier
    with |x * multiplier| <= 126.5, the single-precision product p the
    code computes is within 2^-18 of x * multiplier and the 8-bit
    quantized value is p rounded to the nearest integer, within 0.5 of p;
    so dequantizing (dividing the quantized integer by the multiplier)
    yields a result within (0.5 + 2^-18)/multiplier of x, and within
    0.5/multiplier of x when the product is exact. *)
Theorem quantize8_round_trip :
  forall x mult : float,
    is_finite x = true ->
    (0 < F2Q mult)%Q ->
    (Qabs (F2Q x * F2Q mult) <= 253 # 2)%Q ->
    let p := SFmul prec emax x mult in
    let q := quantize8 mult x in
    (Qabs (F2Q p - F2Q x * F2Q mult) <= 1 # 262144)%Q
    /\ (Qabs (inject_Z q - F2Q p) <= 1 # 2)%Q
    /\ (Qabs (inject_Z q / F2Q mult - F2Q x)
        <= ((1 # 2) + (1 # 262144)) / F2Q mult)%Q
    /\ ((F2Q p == F2Q x * F2Q mult)%Q ->
        (Qabs (inject_Z q / F2Q mult - F2Q x) <= (1 # 2) / F2Q mult)%Q).
Proof.
  intros x mult Hx Hpos HV p q.
  assert (Hm : is_finite mult = true).
  { destruct mult; try reflexivity; exfalso; revert Hpos; apply Qlt_irrefl. }
  destruct (SFmul_error x mult Hx Hm HV) as [Hfin [Hp Herr]].
  fold p in Hfin, Hp, Herr.
  pose proof (quantize8_within_half x mult Hfin Hp) as Hhalf. fold q in Hhalf.
  assert (Hne : ~ (F2Q mult == 0)%Q).
  { intros H0. rewrite H0 in Hpos. revert Hpos. apply Qlt_irrefl. }
  assert (Hinv : (0 <= / F2Q mult)%Q)
    by (apply Qlt_le_weak, Qinv_lt_0_compat, Hpos).
  assert (Hdiv : forall d bound : Q,
             (Qabs d <= bound)%Q ->
             (inject_Z q - F2Q x * F2Q mult == d)%Q ->
             (Qabs (inject_Z q / F2Q mult - F2Q x) <= bound / F2Q mult)%Q).
  { intros d bound Hd Hdq.
    assert (Heq : (inject_Z q / F2Q mult - F2Q x == d * / F2Q mult)%Q)
      by (rewrite <- Hdq; field; exact Hne).
    rewrite Heq, Qabs_Qmult, (Qabs_pos (/ F2Q mult) Hinv).
    unfold Qdiv. apply Qmult_le_compat_r; assumption. }
  split; [exact Herr|]. split; [exact Hhalf|]. split.
  - apply (Hdiv ((inject_Z q - F2Q p) + (F2Q p - F2Q x * F2Q mult))%Q);
      [|ring].
    eapply Qle_trans; [apply Qabs_triangle|].
    apply Qplus_le_compat; assumption.
  - intros Hexact.
    apply (Hdiv (inject_Z q - F2Q p)%Q); [exact Hhalf|].
    rewrite Hexact. reflexivity.
Qed.

Lemma quantize8_round_trip_witness :
  quantize8 example_mult example_x = 4
  /\ (Qabs (inject_Z (quantize8 example_mult example_x)
            / F2Q example_mult - F2Q example_x)
      <= ((1 # 2) + (1 # 262144)) / F2Q example_mult)%Q.
Proof.
  split; [reflexivity|].
  apply (quantize8_round_trip example_x example_mult).
  - reflexivity.
  - reflexivity.
  - vm_compute. discriminate.
Defined.

(** ** The tile quantizer *)

Lemma firstn_In {X : Type} (n : nat) (l : list X) (x : X) :
  In x (firstn n l) -> In x l.
Proof.
  revert l. induction n as [|n IH]; intros [|y l] H; simpl in *; try contradiction.
  destruct H as [H | H]; [left; exact H | right; apply IH; exact H].
Qed.













(** ** Selecting every column *)

Lemma strip_div_mod (s k : nat) :
  (k < 8)%nat -> ((8 * s + k) mod 8 = k)%nat /\ ((8 * s + k) / 8 = s)%nat.
Proof.
  intros Hk. split; symmetry.
  - apply (Nat.mod_unique (8 * s + k) 8 s k); lia.
  - apply (Nat.div_unique (8 * s + k) 8 s k); lia.
Qed.

Lemma strip_start (RR s k : nat) :
  (k < 8)%nat ->
  ((8 * s + k) mod 8 + (8 * s + k) / 8 * 8 * RR = 8 * s * RR + k)%nat.
Proof.
  intros Hk. destruct (strip_div_mod s k Hk) as [-> ->]. lia.
Qed.

Lemma slices8 {X : Type} (P : list X) (o : nat) :
  concat [slice o 64 P; slice (o + 64) 64 P; slice (o + 128) 64 P;
          slice (o + 192) 64 P; slice (o + 256) 64 P; slice (o + 320) 64 P;
          slice (o + 384) 64 P; slice (o + 448) 64 P]
  = slice o 512 P.
Proof.
  cbn [concat]. rewrite app_nil_r.
  replace 512%nat with (64 + (64 + (64 + (64 + (64 + (64 + (64 + 64)))))))%nat
    by reflexivity.
  rewrite <- (slice_app o 64). f_equal.
  rewrite <- (slice_app (o + 64) 64). f_equal.
  replace (o + 64 + 64)%nat with (o + 128)%nat by lia.
  rewrite <- (slice_app (o + 128) 64). f_equal.
  replace (o + 128 + 64)%nat with (o + 192)%nat by lia.
  rewrite <- (slice_app (o + 192) 64). f_equal.
  replace (o + 192 + 64)%nat with (o + 256)%nat by lia.
  rewrite <- (slice_app (o + 256) 64). f_equal.
  replace (o + 256 + 64)%nat with (o + 320)%nat by lia.
  rewrite <- (slice_app (o + 320) 64). f_equal.
  replace (o + 320 + 64)%nat with (o + 384)%nat by lia.
  rewrite <- (slice_app (o + 384) 64). f_equal.
  replace (o + 384 + 64)%nat with (o + 448)%nat by lia.
  reflexivity.
Qed.

(** The registers of the eight columns of one strip, chunk after chunk,
    are the strip itself. *)
Lemma copy_rows_strip (P : list Z) (t : nat) :
  forall n r : nat,
    (64 * (t + 8 * (r + n)) <= length P)%nat ->
    avx512f.copy_rows P [t; t + 1; t + 2; t + 3; t + 4; t + 5; t + 6; t + 7]%nat n r
    = Done (slice (64 * (t + 8 * r)) (512 * n) P).
Proof.
  induction n as [|n IH]; intros r Hb.
  - reflexivity.
  - cbn [avx512f.copy_rows avx512f.mapM].
    rewrite !load_si512_Done by lia. cbn [bind].
    rewrite IH by lia. cbn [bind]. f_equal.
    replace (64 * (t + 8 * r))%nat with (64 * (t + 8 * r) + 0)%nat at 1 by lia.
    replace (64 * (t + 1 + 8 * r))%nat with (64 * (t + 8 * r) + 64)%nat by lia.
    replace (64 * (t + 2 + 8 * r))%nat with (64 * (t + 8 * r) + 128)%nat by lia.
    replace (64 * (t + 3 + 8 * r))%nat with (64 * (t + 8 * r) + 192)%nat by lia.
    replace (64 * (t + 4 + 8 * r))%nat with (64 * (t + 8 * r) + 256)%nat by lia.
    replace (64 * (t + 5 + 8 * r))%nat with (64 * (t + 8 * r) + 320)%nat by lia.
    replace (64 * (t + 6 + 8 * r))%nat with (64 * (t + 8 * r) + 384)%nat by lia.
    replace (64 * (t + 7 + 8 * r))%nat with (64 * (t + 8 * r) + 448)%nat by lia.
    replace (64 * (t + 8 * r) + 0)%nat with (64 * (t + 8 * r))%nat by lia.
    rewrite slices8.
    replace (64 * (t + 8 * S r))%nat with (64 * (t + 8 * r) + 512)%nat by lia.
    rewrite slice_app. f_equal. lia.
Qed.

Lemma select_groups_all (P : list Z) (RR : nat) :
  forall g s : nat,
    (512 * RR * (s + g) <= length P)%nat ->
    avx512f.select_groups P RR (seq (8 * s) (8 * g))
    = Done (slice (512 * RR * s) (512 * RR * g) P).
Proof.
  induction g as [|g IH]; intros s Hb.
  - replace (512 * RR * 0)%nat with 0%nat by lia. reflexivity.
  - replace (8 * S g)%nat with (S (S (S (S (S (S (S (S (8 * g)))))))))%nat by lia.
    cbn [seq avx512f.select_groups map].
    replace (S (8 * s)) with (8 * s + 1)%nat by lia.
    replace (S (8 * s + 1)) with (8 * s + 2)%nat by lia.
    replace (S (8 * s + 2)) with (8 * s + 3)%nat by lia.
    replace (S (8 * s + 3)) with (8 * s + 4)%nat by lia.
    replace (S (8 * s + 4)) with (8 * s + 5)%nat by lia.
    replace (S (8 * s + 5)) with (8 * s + 6)%nat by lia.
    replace (S (8 * s + 6)) with (8 * s + 7)%nat by lia.
    replace (S (8 * s + 7)) with (8 * S s)%nat by lia.
    replace (8 * s)%nat with (8 * s + 0)%nat at 1 2 by lia.
    rewrite !strip_start by lia.
    replace (8 * s * RR + 0)%nat with (8 * s * RR)%nat by lia.
    assert (Hstrip : (512 * RR * (s + 1) <= 512 * RR * (s + S g))%nat)
      by (apply Nat.mul_le_mono_l; lia).
    rewrite copy_rows_strip by lia. cbn [bind].
    rewrite IH by (replace (S s + g)%nat with (s + S g)%nat by lia; exact Hb).
    cbn [bind]. f_equal.
    replace (64 * (8 * s * RR + 8 * 0))%nat with (512 * RR * s)%nat by lia.
    replace (512 * RR * S s)%nat with (512 * RR * s + 512 * RR)%nat by lia.
    rewrite slice_app. f_equal. lia.
Qed.

(** C6. For every packed B of a rows x cols matrix (rows a multiple of
    kBTileRow, cols a multiple of 8), such as the output of PrepareB,
    SelectColumnsB with the full list of column indices 0, 1, ...,
    cols-1 in order produces a buffer equal to it element for element. *)
Theorem SelectColumnsB_all_columns :
  forall (packed : list Z) (rows cols : nat),
    (rows mod AVX512_8bit.kBTileRow = 0)%nat ->
    (cols mod AVX512_8bit.kBTileCol = 0)%nat ->
    length packed = (rows * cols)%nat ->
    AVX512_8bit.SelectColumnsB packed rows (seq 0 cols) = Done packed.
Proof.
  unfold AVX512_8bit.kBTileRow, AVX512_8bit.kBTileCol.
  intros packed rows cols Hr Hc Hlen.
  unfold AVX512_8bit.SelectColumnsB, avx512f.SelectColumnsOfB.
  rewrite length_seq, Hr, Hc. cbn [Nat.eqb assert bind].
  pose proof (Nat.Div0.div_exact rows 64) as [_ Hdr]. specialize (Hdr Hr).
  pose proof (Nat.Div0.div_exact cols 8) as [_ Hdc]. specialize (Hdc Hc).
  assert (Hsize : (512 * (rows / 64) * (cols / 8) = length packed)%nat) by nia.
  rewrite Hdc at 1.
  replace (seq 0 (8 * (cols / 8))) with (seq (8 * 0) (8 * (cols / 8)))
    by (f_equal; lia).
  rewrite select_groups_all by lia.
  f_equal. unfold slice.
  replace (512 * (rows / 64) * 0)%nat with 0%nat by lia.
  rewrite Hsize. cbn [skipn]. apply firstn_all.
Qed.

Lemma SelectColumnsB_all_columns_witness :
  AVX512_8bit.SelectColumnsB example_B 64 (seq 0 16) = Done example_B.
Proof.
  apply (SelectColumnsB_all_columns example_B 64 16); reflexivity.
Defined.

(** ** Concrete runs *)

(** Ties go to the even integer; out-of-range values saturate; a product
    beyond 32 bits, an infinity or a NaN is stored as -127. *)
Example quantize8_values :
  map (quantize8 example_half)
      [float_of_Z 5; float_of_Z 7; float_of_Z (-5); float_of_Z 253;
       float_of_Z 300; float_of_Z (-300); float_of_Z 6000000000;
       S754_infinity false; S754_nan]
  = [2; 4; -2; 126; 127; -127; -127; -127; -127].
Proof. vm_compute. reflexivity. Qed.

Example Quantize8_example :
  AVX512_8bit.Quantize 40 0 example_floats (float_of_Z 1) 32
  = Done [-127; -127; -127; -127; -127; -127; -127; -127; -127; -120; -100;
          -80; -60; -40; -20; 0; 20; 40; 60; 80; 100; 120; 127; 127; 127;
          127; 127; 127; 127; 127; 127; 127].
Proof. vm_compute. reflexivity. Qed.

Example Quantize16_example :
  AVX512_16bit.Quantize 40 0 example_floats (float_of_Z 1000) 16
  = Done [-32768; -32768; -32768; -32768; -32768; -32768; -32768; -32768;
          -32768; -32768; -32768; -32768; -32768; -32768; -20000; 0].
Proof. vm_compute. reflexivity. Qed.

(** The tile quantizer reads rows 0, 2, 16, 18, 32, 34, 48 and 50 of the
    tile, eight columns each. *)
Example ForReshape_example :
  avx512f.QuantizeTile8_ForReshape (avx512f.QuantizeTile8 (float_of_Z 1))
    example_tile 0 8
  = Done [-127; -127; -127; -127; -127; -127; -127; -127;
          -127; -127; -127; -127; -127; -127; -127; -127;
          -127; -127; -126; -125; -124; -123; -122; -121;
          -112; -111; -110; -109; -108; -107; -106; -105;
          0; 1; 2; 3; 4; 5; 6; 7; 16; 17; 18; 19; 20; 21; 22; 23;
          127; 127; 127; 127; 127; 127; 127; 127;
          127; 127; 127; 127; 127; 127; 127; 127].
Proof. vm_compute. reflexivity. Qed.

(** Two rows against two strips: four calls, strip by strip. *)
Example Multiply_example :
  match Multiply 100 0 0 example_A example_B 2 64 16 with
  | Done calls =>
      map (fun c => (call_A_rowidx c, call_B0_colidx c, call_total c)) calls
  | _ => []
  end
  = [(0%nat, 0%nat, repeat (-76960) 8); (1%nat, 0%nat, repeat 198496 8);
     (0%nat, 8%nat, repeat (-76960) 8); (1%nat, 8%nat, repeat 198496 8)].
Proof. vm_compute. reflexivity. Qed.

(** Two chunks to the shared dimension: the 16-bit sums of the chunks are
    added with saturation before they are widened. *)
Example Multiply_two_chunks :
  match Multiply 100 0 0 (example_a ++ example_a) example_B 1 128 8 with
  | Done calls => map call_total calls
  | _ => []
  end
  = [repeat (-153920) 8].
Proof. vm_compute. reflexivity. Qed.

(** Selecting the columns of the second strip in reverse order. *)
Example SelectColumnsB_example :
  match AVX512_8bit.SelectColumnsB example_packed 64
          [15; 14; 13; 12; 11; 10; 9; 8]%nat with
  | Done out => map (fun k => nth (64 * k) out 0) (seq 0 8)
  | _ => []
  end
  = [15; 14; 13; 12; 11; 10; 9; 8].
Proof. vm_compute. reflexivity. Qed.

(** With two chunks the saturating addition of the 16-bit sums is felt:
    127 * 127 in every lane gives 32258 per pair and chunk, the sum of two
    chunks saturates at 32767, and each total is 32 * 32767 instead of
    the exact 128 * 16129 = 2064512. *)
Example Multiply_saturates :
  match Multiply 100 0 0 (repeat 127 128) (repeat 127 1024) 1 128 8 with
  | Done calls => map call_total calls
  | _ => []
  end
  = [repeat 1048544 8].
Proof. vm_compute. reflexivity. Qed.

(** The input that breaks the bound of 0.5/multiplier does so in single
    precision arithmetic too: 4/3 - x, computed in floats, exceeds the
    float 0.5/3. *)
Example dequantize_bound_fails_in_floats :
  let q := float_of_Z (quantize8 example_mult example_x) in
  SFleb (SFabs (SFsub prec emax (SFdiv prec emax q example_mult) example_x))
        (SFdiv prec emax example_half example_mult) = false.
Proof. vm_compute. reflexivity. Qed.

(** ** The tiles of the packers *)











(** ** What the quantizers read *)

Lemma QuantizerGrab_fails (mem : list float) (input : nat) (reg : list float) :
  (length mem < input + 16)%nat ->
  avx512f.QuantizerGrab mem input reg = OutOfBounds.
Proof.
  intros H. unfold avx512f.QuantizerGrab, loadu_ps.
  destruct (Nat.leb_spec (input + 16) (length mem)); [lia | reflexivity].
Qed.

Lemma Quantize8_loop_fails (mem : list float) (mult : float) :
  forall (k n input : nat),
    (0 < k)%nat -> (k < n)%nat -> (length mem < input + 16 * k)%nat ->
    AVX512_8bit.Quantize_loop n mem (_mm512_set1_epi32 (-127))
      (_mm512_set1_ps mult) input (input + 16 * k) = OutOfBounds.
Proof.
  induction k as [|k IH]; intros n input Hk Hn Hb; [lia|].
  destruct n as [|n]; [lia|]. cbn [AVX512_8bit.Quantize_loop].
  destruct (Nat.ltb_spec input (input + 16 * S k)); [|lia].
  destruct (Nat.le_gt_cases (input + 16) (length mem)) as [Hin|Hout].
  - rewrite QuantizerGrab_runs by exact Hin. cbn [bind].
    replace (input + 16 * S k)%nat with (input + 16 + 16 * k)%nat by lia.
    rewrite IH by lia. reflexivity.
  - rewrite QuantizerGrab_fails by exact Hout. reflexivity.
Qed.

Lemma Quantize16_loop_fails (mem : list float) (mult : float) :
  forall (k n input : nat),
    (0 < k)%nat -> (k < n)%nat -> (length mem < input + 16 * k)%nat ->
    AVX512_16bit.Quantize_loop n mem (_mm512_set1_ps mult) input (input + 16 * k)
    = OutOfBounds.
Proof.
  induction k as [|k IH]; intros n input Hk Hn Hb; [lia|].
  destruct n as [|n]; [lia|]. cbn [AVX512_16bit.Quantize_loop].
  destruct (Nat.eqb_spec input (input + 16 * S k)); [lia|].
  destruct (Nat.le_gt_cases (input + 16) (length mem)) as [Hin|Hout].
  - rewrite QuantizerGrab_runs by exact Hin. cbn [bind].
    replace (input + 16 * S k)%nat with (input + 16 + 16 * k)%nat by lia.
    rewrite IH by lia. reflexivity.
  - rewrite QuantizerGrab_fails by exact Hout. reflexivity.
Qed.

(** Once their assertions hold, both Quantize functions read exactly the
    first [size] floats: they complete, with one quantized value per
    float, when the buffer holds [size] floats, and run off its end when
    it holds fewer. *)
Theorem Quantize_reads_size_floats :
  forall (fuel input_addr : nat) (mem : list float) (mult : float) (size : nat),
    (size mod 16 = 0)%nat -> (input_addr mod 64 = 0)%nat -> (size < fuel)%nat ->
    AVX512_8bit.Quantize fuel input_addr mem mult size
    = (if (size <=? length mem)%nat
       then Done (map (quantize8 mult) (firstn size mem)) else OutOfBounds)
    /\ AVX512_16bit.Quantize fuel input_addr mem mult size
       = (if (size <=? length mem)%nat
          then Done (map (quantize16 mult) (firstn size mem)) else OutOfBounds).
Proof.
  intros fuel input_addr mem mult size Hs Ha Hf.
  destruct (Nat.leb_spec size (length mem)) as [Hin|Hout].
  - split; [apply Quantize8_runs | apply Quantize16_runs]; assumption.
  - pose proof (Nat.Div0.div_exact size 16) as [_ Hd]. specialize (Hd Hs).
    split.
    + unfold AVX512_8bit.Quantize. rewrite Hs, Ha. cbn [Nat.eqb assert bind].
      rewrite Hd at 1. apply (Quantize8_loop_fails mem mult (size / 16) fuel 0); lia.
    + unfold AVX512_16bit.Quantize. rewrite Hs, Ha. cbn [Nat.eqb assert bind].
      rewrite Hd at 1. apply (Quantize16_loop_fails mem mult (size / 16) fuel 0); lia.
Qed.

Lemma Quantize_reads_size_floats_witness :
  AVX512_8bit.Quantize 60 0 example_floats (float_of_Z 1) 48 = OutOfBounds
  /\ AVX512_16bit.Quantize 60 0 example_floats (float_of_Z 1) 48 = OutOfBounds.
Proof.
  apply (Quantize_reads_size_floats 60 0 example_floats (float_of_Z 1) 48).
  - reflexivity.
  - reflexivity.
  - apply Nat.leb_le. reflexivity.
Defined.

(** ** The range of the 16-bit quantizer *)

Lemma quantize16_finite (mult x : float) (s : bool) (m : positive) (e : Z) :
  SFmul prec emax x mult = S754_finite s m e ->
  let r := cond_Zopp s (nearest_even m e) in
  (-32768 <= r <= 32767 -> quantize16 mult x = r)
  /\ (32767 <= r <= 2147483647 -> quantize16 mult x = 32767)
  /\ (r <= -32768 -> quantize16 mult x = -32768)
  /\ (2147483647 < r -> quantize16 mult x = -32768).
Proof.
  intros Hp r. unfold quantize16. rewrite Hp. cbn [cvtss_si32]. fold r.
  unfold int32_indefinite, sat16.
  destruct (Z.leb_spec (-2147483648) r), (Z.leb_spec r 2147483647);
    cbn [andb]; repeat split; intros; lia.
Qed.

Lemma F2Q_neg (m : positive) (e : Z) :
  (F2Q (S754_finite true m e) == - F2Q (S754_finite false m e))%Q.
Proof.
  unfold F2Q. destruct (0 <=? e); cbn [cond_Zopp];
    unfold Qeq, Qopp, inject_Z; cbn [Qnum Qden]; lia.
Qed.

Lemma F2Q_pos (m : positive) (e : Z) : (0 < F2Q (S754_finite false m e))%Q.
Proof.
  unfold F2Q. destruct (Z.leb_spec 0 e); cbn [cond_Zopp];
    unfold Qlt, inject_Z; cbn [Qnum Qden].
  - assert (0 < 2 ^ e) by (apply Z.pow_pos_nonneg; lia). nia.
  - lia.
Qed.

(** The rounded value of a float is on the same side of an integer as
    the float. *)
Lemma rounded_ge (s : bool) (m : positive) (e k : Z) :
  0 <= k -> (inject_Z k <= F2Q (S754_finite s m e))%Q ->
  k <= cond_Zopp s (nearest_even m e).
Proof.
  intros Hk H. destruct s.
  - exfalso. rewrite F2Q_neg in H. pose proof (F2Q_pos m e) as Hp.
    assert (H0 : (inject_Z k < 0)%Q).
    { eapply Qle_lt_trans; [exact H|].
      apply (Qopp_lt_compat 0) in Hp. exact Hp. }
    change (inject_Z k < inject_Z 0)%Q in H0.
    rewrite <- (Zlt_Qlt k 0) in H0. lia.
  - cbn [cond_Zopp]. apply nearest_even_monotone. exact H.
Qed.

Lemma rounded_le (s : bool) (m : positive) (e k : Z) :
  k <= 0 -> (F2Q (S754_finite s m e) <= inject_Z k)%Q ->
  cond_Zopp s (nearest_even m e) <= k.
Proof.
  intros Hk H. destruct s.
  - cbn [cond_Zopp]. rewrite F2Q_neg in H.
    assert (H' : (inject_Z (- k) <= F2Q (S754_finite false m e))%Q).
    { rewrite inject_Z_opp. apply Qopp_le_compat in H.
      rewrite Qopp_involutive in H. exact H. }
    apply nearest_even_monotone in H'. lia.
  - exfalso. pose proof (F2Q_pos m e) as Hp.
    assert (H0 : (0 < inject_Z k)%Q) by (eapply Qlt_le_trans; eassumption).
    change (inject_Z 0 < inject_Z k)%Q in H0.
    rewrite <- (Zlt_Qlt 0 k) in H0. lia.
Qed.

Lemma rounded_le_pos (s : bool) (m : positive) (e k : Z) :
  0 <= k -> (F2Q (S754_finite s m e) <= inject_Z k)%Q ->
  cond_Zopp s (nearest_even m e) <= k.
Proof.
  intros Hk H. destruct s.
  - cbn [cond_Zopp].
    assert (0 <= nearest_even m e); [|lia].
    apply (nearest_even_monotone m e 0). apply Qlt_le_weak, F2Q_pos.
  - cbn [cond_Zopp]. apply nearest_even_monotone. exact H.
Qed.

(** Every value the 16-bit Quantize stores is a signed 16-bit value; a
    scaled product that is not finite is stored as -32768; a finite one
    of 32767 or more saturates to 32767 as long as it fits 32 bits, one of
    -32768 or less saturates to -32768; and one of magnitude at most 32767
    is stored within one half of its value. *)
Theorem Quantize16_saturates :
  forall (mult x : float),
    let p := SFmul prec emax x mult in
    -32768 <= quantize16 mult x <= 32767
    /\ (is_finite p = false -> quantize16 mult x = -32768)
    /\ (is_finite p = true -> (inject_Z 32767 <= F2Q p)%Q ->
        (F2Q p <= inject_Z 2147483647)%Q -> quantize16 mult x = 32767)
    /\ (is_finite p = true -> (F2Q p <= inject_Z (-32768))%Q ->
        quantize16 mult x = -32768)
    /\ (is_finite p = true -> (Qabs (F2Q p) <= inject_Z 32767)%Q ->
        (Qabs (inject_Z (quantize16 mult x) - F2Q p) <= 1 # 2)%Q).
Proof.
  intros mult x p.
  split; [unfold quantize16, sat16; lia|].
  destruct p as [sz|si| |s m e] eqn:Hp; cbn [is_finite].
  - split; [discriminate|].
    assert (Hq : quantize16 mult x = 0)
      by (unfold quantize16; fold p; rewrite Hp; reflexivity).
    split; [|split]; intros _ H.
    + exfalso. revert H. cbn [F2Q]. unfold Qle. simpl. lia.
    + exfalso. revert H. cbn [F2Q]. unfold Qle. simpl. lia.
    + rewrite Hq. vm_compute. discriminate.
  - unfold quantize16. fold p. rewrite Hp.
    split; [reflexivity|]. repeat split; discriminate.
  - unfold quantize16. fold p. rewrite Hp.
    split; [reflexivity|]. repeat split; discriminate.
  - destruct (quantize16_finite mult x s m e Hp) as [Hmid [Hhi [Hlo Hover]]].
    split; [discriminate|]. split; [|split].
    + intros _ Hge Hle. apply Hhi. split.
      * apply rounded_ge; [lia | exact Hge].
      * apply rounded_le_pos; [lia | exact Hle].
    + intros _ Hle. apply Hlo. apply rounded_le; [lia | exact Hle].
    + intros _ Habs. apply Qabs_Qle_condition in Habs. destruct Habs as [Hl Hu].
      rewrite Hmid; [apply nearest_even_half|]. split.
      * destruct s.
        -- cbn [cond_Zopp]. rewrite F2Q_neg in Hl.
           apply Qopp_le_compat in Hl. rewrite !Qopp_involutive in Hl.
           apply (nearest_even_monotone m e 32767) in Hl. lia.
        -- cbn [cond_Zopp].
           assert (0 <= nearest_even m e); [|lia].
           apply (nearest_even_monotone m e 0). apply Qlt_le_weak, F2Q_pos.
      * apply rounded_le_pos; [lia | exact Hu].
Qed.

Lemma Quantize16_saturates_witness :
  quantize16 (float_of_Z 1) (float_of_Z 40000) = 32767
  /\ quantize16 (float_of_Z 1) (float_of_Z (-40000)) = -32768.
Proof.
  split.
  - destruct (Quantize16_saturates (float_of_Z 1) (float_of_Z 40000))
      as [_ [_ [Hhi _]]].
    apply Hhi; [reflexivity | vm_compute; discriminate | vm_compute; discriminate].
  - destruct (Quantize16_saturates (float_of_Z 1) (float_of_Z (-40000)))
      as [_ [_ [_ [Hlo _]]]].
    apply Hlo; [reflexivity | vm_compute; discriminate].
Defined.

(** ** The 8-bit quantizer is odd *)

Lemma binary_round_aux_opp (s : bool) (m e : Z) (l : location) :
  binary_round_aux prec emax (negb s) m e l
  = SFopp (binary_round_aux prec emax s m e l).
Proof.
  unfold binary_round_aux.
  destruct (shr_fexp prec emax m e l) as [mrs' e'].
  destruct (shr_fexp prec emax
              (round_nearest_even (shr_m mrs') (loc_of_shr_record mrs'))
              e' loc_Exact) as [mrs'' e''].
  destruct (shr_m mrs''); [reflexivity | | reflexivity].
  destruct (e'' <=? emax - prec); reflexivity.
Qed.

Lemma SFmul_opp_l (x y : float) :
  SFmul prec emax (SFopp x) y = SFopp (SFmul prec emax x y).
Proof.
  destruct x as [sx|sx| |sx mx ex], y as [sy|sy| |sy my ey];
    cbn [SFmul SFopp]; try reflexivity;
    try (destruct sx, sy; reflexivity).
  rewrite <- binary_round_aux_opp. destruct sx, sy; reflexivity.
Qed.

Lemma quantize8_odd (mult x : float) :
  in_int32 (SFmul prec emax x mult) ->
  quantize8 mult (SFopp x) = - quantize8 mult x.
Proof.
  intros [Hfin Hb].
  assert (Hp' : SFmul prec emax (SFopp x) mult
                = SFopp (SFmul prec emax x mult)) by apply SFmul_opp_l.
  destruct (SFmul prec emax x mult) as [s| | |s m e] eqn:Hp; try discriminate.
  - unfold quantize8. rewrite Hp', Hp. reflexivity.
  - cbn [SFopp] in Hp'.
    rewrite F2Q_abs in Hb.
    destruct (nearest_even_monotone m e 2147483647) as [_ Hle].
    specialize (Hle Hb).
    assert (Hge : 0 <= nearest_even m e).
    { destruct (nearest_even_monotone m e 0) as [Hge _]. apply Hge.
      apply Qlt_le_weak, F2Q_pos. }
    destruct (quantize8_finite mult x s m e Hp) as [Hmid [Hhi [Hlo _]]].
    destruct (quantize8_finite mult (SFopp x) (negb s) m e Hp')
      as [Hmid' [Hhi' [Hlo' _]]].
    assert (Hr : cond_Zopp (negb s) (nearest_even m e)
                 = - cond_Zopp s (nearest_even m e))
      by (destruct s; cbn [negb cond_Zopp]; lia).
    rewrite Hr in Hmid', Hhi', Hlo'.
    assert (Hrange : -2147483647 <= cond_Zopp s (nearest_even m e) <= 2147483647)
      by (destruct s; cbn [cond_Zopp]; lia).
    destruct (Z_le_gt_dec (cond_Zopp s (nearest_even m e)) (-127)) as [H1|H1].
    + rewrite Hlo by lia. rewrite Hhi' by lia. reflexivity.
    + destruct (Z_le_gt_dec 127 (cond_Zopp s (nearest_even m e))) as [H2|H2].
      * rewrite Hhi by lia. rewrite Hlo' by lia. reflexivity.
      * rewrite Hmid by lia. rewrite Hmid' by lia. reflexivity.
Qed.

Lemma in_int32b_Forall (mult : float) (mem : list float) :
  forallb (fun x => in_int32b (SFmul prec emax x mult)) mem = true ->
  Forall (fun x => in_int32 (SFmul prec emax x mult)) mem.
Proof.
  intros H. apply Forall_forall. intros x Hx.
  rewrite forallb_forall in H. specialize (H x Hx).
  unfold in_int32b in H. apply andb_prop in H. destruct H as [Hf Hq].
  split; [exact Hf | apply Qle_bool_iff; exact Hq].
Qed.

(** Because it clamps at -127 before it narrows, the 8-bit Quantize is
    an odd function wherever the scaled products are finite and fit 32
    bits: on the negated floats it stores the negated values. *)
Theorem Quantize8_is_odd :
  forall (fuel input_addr : nat) (mem : list float) (mult : float) (size : nat),
    (size mod 16 = 0)%nat -> (input_addr mod 64 = 0)%nat ->
    (size <= length mem)%nat -> (size < fuel)%nat ->
    Forall (fun x => in_int32 (SFmul prec emax x mult)) mem ->
    exists out,
      AVX512_8bit.Quantize fuel input_addr mem mult size = Done out
      /\ AVX512_8bit.Quantize fuel input_addr (map SFopp mem) mult size
         = Done (map Z.opp out).
Proof.
  intros fuel input_addr mem mult size Hs Ha Hl Hf Hmem.
  exists (map (quantize8 mult) (firstn size mem)).
  split; [apply Quantize8_runs; assumption|].
  rewrite Quantize8_runs; try assumption; [|rewrite length_map; exact Hl].
  f_equal. rewrite firstn_map, !map_map.
  apply map_ext_in. intros x Hx. apply firstn_In in Hx.
  rewrite Forall_forall in Hmem.
  apply quantize8_odd. apply Hmem. exact Hx.
Qed.

Lemma Quantize8_is_odd_witness :
  exists out,
    AVX512_8bit.Quantize 40 0 example_floats (float_of_Z 1) 32 = Done out
    /\ AVX512_8bit.Quantize 40 0 (map SFopp example_floats) (float_of_Z 1) 32
       = Done (map Z.opp out).
Proof.
  apply (Quantize8_is_odd 40 0 example_floats (float_of_Z 1) 32).
  - reflexivity.
  - reflexivity.
  - apply Nat.leb_le. reflexivity.
  - apply Nat.leb_le. reflexivity.
  - apply in_int32b_Forall. vm_compute. reflexivity.
Defined.

(** ** The sign trick on all signed bytes *)

Lemma lane_product_int8 (a b : Z) :
  int8 a -> int8 b ->
  as_u8 (wrap8 (Z.abs (wrap8 a)))
  * wrap8 (if a <? 0 then wrap8 (0 - b) else b) = lane_product a b.
Proof.
  intros Ha Hb.
  pose proof (forall_int8
    (fun a => forallb (fun b =>
       as_u8 (wrap8 (Z.abs (wrap8 a)))
       * wrap8 (if a <? 0 then wrap8 (0 - b) else b) =? lane_product a b)
       (map (fun n => Z.of_nat n - 128) (seq 0 256)))) as H.
  specialize (H ltac:(vm_compute; reflexivity) a Ha). cbv beta in H.
  pose proof (forall_int8
    (fun b => as_u8 (wrap8 (Z.abs (wrap8 a)))
       * wrap8 (if a <? 0 then wrap8 (0 - b) else b) =? lane_product a b)
    H b Hb) as H'.
  cbv beta in H'. apply Z.eqb_eq in H'. exact H'.
Qed.

Lemma lane_product_bound (a b : Z) :
  int8 a -> int8 b -> -16384 <= lane_product a b <= 16256.
Proof.
  unfold int8, lane_product. intros Ha Hb.
  destruct (Z.ltb_spec a 0), (Z.eqb_spec b (-128)); cbn [andb]; nia.
Qed.

Lemma lane_product_in127 (a b : Z) : in127 b -> lane_product a b = a * b.
Proof.
  unfold in127, lane_product. intros Hb.
  destruct (Z.eqb_spec b (-128)); [lia|]. rewrite andb_false_r. reflexivity.
Qed.

Lemma sign_trick_lanes_int8 (n : nat) (a : list Z) :
  forall (m : nat) (b : list Z),
    (length a <= n)%nat -> (length a <= m)%nat ->
    Forall int8 a -> Forall int8 b ->
    _mm512_maddubs_epi16 (_mm512_abs_epi8 a)
      (_mm512_mask_sub_epi8 b
         (_mm512_test_epi8_mask a (repeat (wrap8 (-128)) n))
         (repeat 0 m) b)
    = pair_lane_products a b.
Proof.
  revert n. induction a as [|x|x y a IH] using list_pair_ind;
    intros n m b Hn Hm Ha Hb.
  - reflexivity.
  - reflexivity.
  - simpl in Hn, Hm.
    destruct n as [|[|n]]; try lia. destruct m as [|[|m]]; try lia.
    destruct b as [|b0 [|b1 b]]; try reflexivity.
    inversion Ha as [|? ? Hx Ha1]; subst. inversion Ha1 as [|? ? Hy Ha2]; subst.
    inversion Hb as [|? ? Hb0 Hb1']; subst. inversion Hb1' as [|? ? Hb1 Hb2]; subst.
    cbn [_mm512_abs_epi8 map repeat _mm512_test_epi8_mask map2
         _mm512_mask_sub_epi8 _mm512_maddubs_epi16 pair_lane_products].
    f_equal.
    + rewrite !test_sign_bit by (unfold int8 in *; lia).
      rewrite !lane_product_int8 by assumption.
      pose proof (lane_product_bound x b0 Hx Hb0).
      pose proof (lane_product_bound y b1 Hy Hb1).
      apply sat16_id. lia.
    + apply (IH n m b); try assumption; lia.
Qed.

Lemma pair_lane_products_in127 (a : list Z) :
  forall b : list Z, Forall in127 b -> pair_lane_products a b = pair_products a b.
Proof.
  induction a as [|x|x y a IH] using list_pair_ind; intros b Hb.
  - reflexivity.
  - reflexivity.
  - destruct b as [|b0 [|b1 b]]; try reflexivity.
    inversion Hb as [|? ? Hb0 Hb1']; subst. inversion Hb1' as [|? ? Hb1 Hb2]; subst.
    cbn [pair_lane_products pair_products].
    rewrite !lane_product_in127 by assumption. rewrite IH by assumption.
    reflexivity.
Qed.

Lemma int8b_Forall (l : list Z) : forallb int8b l = true -> Forall int8 l.
Proof.
  intros H. apply Forall_forall. intros x Hx.
  rewrite forallb_forall in H. specialize (H x Hx).
  unfold int8b in H. unfold int8. lia.
Qed.

(** On registers of arbitrary signed bytes the multiply-add of the sign
    trick never saturates: every 16-bit lane is the sum of two lane
    products and lies in [-32768, 32512].  A lane product is the signed
    product, except that a negative lane of A against a -128 of B gives
    the product with the wrong sign, since -128 has no negation in 8
    bits. *)
Theorem sign_trick_on_signed_bytes :
  forall a b : list Z,
    (length a <= 64)%nat -> Forall int8 a -> Forall int8 b ->
    sign_trick a b = pair_lane_products a b
    /\ Forall (fun p => -32768 <= p <= 32512) (sign_trick a b).
Proof.
  intros a b Hl Ha Hb.
  assert (He : sign_trick a b = pair_lane_products a b).
  { unfold sign_trick, setzero_si, _mm512_set1_epi8.
    apply (sign_trick_lanes_int8 64 a 64 b); assumption. }
  split; [exact He|]. rewrite He. clear He Hl. revert b Hb.
  induction a as [|x|x y a IH] using list_pair_ind; intros b Hb.
  - constructor.
  - constructor.
  - destruct b as [|b0 [|b1 b]]; try constructor.
    + inversion Ha as [|? ? Hx Ha1]; subst. inversion Ha1 as [|? ? Hy Ha2]; subst.
      inversion Hb as [|? ? Hb0 Hb1']; subst. inversion Hb1' as [|? ? Hb1 Hb2]; subst.
      pose proof (lane_product_bound x b0 Hx Hb0).
      pose proof (lane_product_bound y b1 Hy Hb1). lia.
    + inversion Ha as [|? ? Hx Ha1]; subst. inversion Ha1 as [|? ? Hy Ha2]; subst.
      inversion Hb as [|? ? Hb0 Hb1']; subst. inversion Hb1' as [|? ? Hb1 Hb2]; subst.
      apply IH; assumption.
Qed.

Lemma sign_trick_on_signed_bytes_witness :
  sign_trick example_a example_min = pair_lane_products example_a example_min
  /\ Forall (fun p => -32768 <= p <= 32512) (sign_trick example_a example_min).
Proof.
  apply (sign_trick_on_signed_bytes example_a example_min).
  - apply Nat.leb_le. reflexivity.
  - apply int8b_Forall. vm_compute. reflexivity.
  - apply int8b_Forall. vm_compute. reflexivity.
Defined.

(** The sign trick is exact for every signed byte of A, -128 included:
    only the lanes of B have to stay in [-127, 127]. *)
Theorem sign_trick_full_range_of_A :
  forall a b : list Z,
    (length a <= 64)%nat -> Forall int8 a -> Forall in127 b ->
    sign_trick a b = pair_products a b.
Proof.
  intros a b Hl Ha Hb.
  unfold sign_trick, setzero_si, _mm512_set1_epi8.
  rewrite (sign_trick_lanes_int8 64 a 64 b); try assumption.
  - apply pair_lane_products_in127. exact Hb.
  - eapply Forall_impl; [|exact Hb]. unfold in127, int8. intros; lia.
Qed.

Lemma sign_trick_full_range_of_A_witness :
  sign_trick example_min example_b = pair_products example_min example_b.
Proof.
  apply (sign_trick_full_range_of_A example_min example_b).
  - apply Nat.leb_le. reflexivity.
  - apply int8b_Forall. vm_compute. reflexivity.
  - apply in127b_Forall. vm_compute. reflexivity.
Defined.

(** ** The totals, column by column *)

Lemma shared_chunks_columns (A B : list Z) :
  forall (k A_live B_live : nat) (sums : oct (list Z)),
    shared_chunks A B k A_live B_live sums
    = Oct (column_chunks A B k A_live B_live (o0 sums))
          (column_chunks A B k A_live (B_live + 1) (o1 sums))
          (column_chunks A B k A_live (B_live + 2) (o2 sums))
          (column_chunks A B k A_live (B_live + 3) (o3 sums))
          (column_chunks A B k A_live (B_live + 4) (o4 sums))
          (column_chunks A B k A_live (B_live + 5) (o5 sums))
          (column_chunks A B k A_live (B_live + 6) (o6 sums))
          (column_chunks A B k A_live (B_live + 7) (o7 sums)).
Proof.
  induction k as [|k IH]; intros A_live B_live sums.
  - destruct sums. reflexivity.
  - cbn [shared_chunks column_chunks]. rewrite IH.
    unfold oct_map2, oct_map, regs8. cbn [o0 o1 o2 o3 o4 o5 o6 o7].
    replace (B_live + 8 + 1)%nat with (B_live + 1 + 8)%nat by lia.
    replace (B_live + 8 + 2)%nat with (B_live + 2 + 8)%nat by lia.
    replace (B_live + 8 + 3)%nat with (B_live + 3 + 8)%nat by lia.
    replace (B_live + 8 + 4)%nat with (B_live + 4 + 8)%nat by lia.
    replace (B_live + 8 + 5)%nat with (B_live + 5 + 8)%nat by lia.
    replace (B_live + 8 + 6)%nat with (B_live + 6 + 8)%nat by lia.
    replace (B_live + 8 + 7)%nat with (B_live + 7 + 8)%nat by lia.
    reflexivity.
Qed.

Lemma row_chunks_columns (A B : list Z) (width simd_width B0_col A_rowidx : nat) :
  row_chunks A B width simd_width B0_col A_rowidx
  = map (fun c => column_total A B width simd_width A_rowidx (B0_col + c))
        (seq 0 8).
Proof.
  unfold row_chunks, column_total. rewrite shared_chunks_columns.
  unfold reduce, regs8, oct_map, Pack0123, PermuteSummer.
  cbn [o0 o1 o2 o3 o4 o5 o6 o7 seq map app].
  replace (B0_col + 0)%nat with B0_col by lia.
  replace (B0_col + 8 + 1)%nat with (B0_col + 1 + 8)%nat by lia.
  replace (B0_col + 8 + 2)%nat with (B0_col + 2 + 8)%nat by lia.
  replace (B0_col + 8 + 3)%nat with (B0_col + 3 + 8)%nat by lia.
  replace (B0_col + 8 + 4)%nat with (B0_col + 4 + 8)%nat by lia.
  replace (B0_col + 8 + 5)%nat with (B0_col + 5 + 8)%nat by lia.
  replace (B0_col + 8 + 6)%nat with (B0_col + 6 + 8)%nat by lia.
  replace (B0_col + 8 + 7)%nat with (B0_col + 7 + 8)%nat by lia.
  reflexivity.
Qed.

(** ** The totals are bounded *)

Lemma sat16_range (x : Z) : range16 (sat16 x).
Proof. unfold range16, sat16. lia. Qed.

Lemma maddubs_range16 (a : list Z) :
  forall b : list Z, Forall range16 (_mm512_maddubs_epi16 a b).
Proof.
  induction a as [|x|x y a IH] using list_pair_ind; intros b.
  - constructor.
  - constructor.
  - destruct b as [|b0 [|b1 b]]; try constructor.
    + apply sat16_range.
    + apply IH.
Qed.

Lemma adds_range16 (x : list Z) :
  forall y : list Z, Forall range16 (_mm512_adds_epi16 x y).
Proof.
  unfold _mm512_adds_epi16.
  induction x as [|x0 x IH]; intros [|y0 y]; cbn [map2]; constructor.
  - apply sat16_range.
  - apply IH.
Qed.

Lemma sign_trick_range16 (a b : list Z) : Forall range16 (sign_trick a b).
Proof. unfold sign_trick. apply maddubs_range16. Qed.

Lemma column_chunks_range16 (A B : list Z) :
  forall (k A_live B_reg : nat) (sum : list Z),
    Forall range16 sum -> Forall range16 (column_chunks A B k A_live B_reg sum).
Proof.
  induction k as [|k IH]; intros A_live B_reg sum Hs.
  - exact Hs.
  - cbn [column_chunks]. apply IH. apply adds_range16.
Qed.

Lemma madd_ones_range (p : list Z) :
  forall m : nat,
    Forall range16 p ->
    (length (_mm512_madd_epi16 p (repeat 1%Z m)) <= m / 2)%nat
    /\ Forall (fun x => -65536 <= x <= 65534) (_mm512_madd_epi16 p (repeat 1 m)).
Proof.
  induction p as [|x|x y p IH] using list_pair_ind; intros m Hp.
  - split; [cbn; lia | constructor].
  - split; [cbn; lia | constructor].
  - destruct m as [|[|m]]; try (split; [cbn; lia | constructor]).
    inversion Hp as [|? ? Hx Hp1]; subst. inversion Hp1 as [|? ? Hy Hp2]; subst.
    destruct (IH m Hp2) as [Hl Hr].
    cbn [repeat _mm512_madd_epi16 length]. unfold range16 in Hx, Hy.
    split.
    + change (S (S m)) with (1 * 2 + m)%nat.
      rewrite Nat.div_add_l by lia. lia.
    + constructor; [rewrite wrap32_id; lia | exact Hr].
Qed.

Lemma hsum32_range (r : list Z) :
  Forall (fun x => -65536 <= x <= 65534) r -> (length r <= 16)%nat ->
  hsum32 r = zsum r
  /\ -65536 * Z.of_nat (length r) <= zsum r <= 65534 * Z.of_nat (length r).
Proof.
  intros Hr. induction Hr as [|x r Hx Hr IH]; intros Hl.
  - cbn. lia.
  - cbn [length hsum32 zsum fold_right] in *. fold (hsum32 r). fold (zsum r).
    destruct IH as [IH1 IH2]; [lia|]. rewrite IH1.
    split; [apply wrap32_id|]; lia.
Qed.

Lemma column_total_range (A B : list Z) (width simd_width A_rowidx B_reg : nat) :
  total_range (column_total A B width simd_width A_rowidx B_reg).
Proof.
  unfold column_total, madd_epi16, set1_epi16. change (wrap16 1) with 1.
  destruct (madd_ones_range
              (column_chunks A B (simd_width - 1) (A_rowidx * width + 64)
                 (B_reg + 8)
                 (sign_trick (slice (A_rowidx * width) 64 A)
                    (slice (64 * B_reg) 64 B))) 32) as [Hl Hr].
  { apply column_chunks_range16, sign_trick_range16. }
  change (32 / 2)%nat with 16%nat in Hl.
  destruct (hsum32_range _ Hr Hl) as [He Hb].
  rewrite He. unfold total_range. lia.
Qed.

Lemma Multiply_calls_Forall (P : callback_call -> Prop) (A B : list Z)
    (A_rows width B_cols : nat) :
  (forall s r : nat,
      P (Call (row_chunks A B width (width / 64) (8 * (width / 64) * s) r)
              r (8 * s) A_rows width B_cols)) ->
  Forall P (Multiply_calls A B A_rows width B_cols).
Proof.
  intros H. apply Forall_forall. intros c Hc. unfold Multiply_calls in Hc.
  apply in_flat_map in Hc. destruct Hc as [s [_ Hc]].
  apply in_map_iff in Hc. destruct Hc as [r [<- _]]. apply H.
Qed.

(** Whatever the bytes of A and B and however wide the shared dimension,
    every call of a complete run receives eight totals, each between
    -1048576 and 1048544: the 16-bit sums saturate, and the 32 of them
    that make a total cannot overflow 32 bits. *)
Theorem Multiply_totals_bounded :
  forall (fuel A_addr B_addr : nat) (A B : list Z) (A_rows width B_cols : nat),
    (width mod 64 = 0)%nat -> (0 < width)%nat ->
    (B_cols mod 8 = 0)%nat ->
    (A_addr mod 64 = 0)%nat -> (B_addr mod 64 = 0)%nat ->
    (A_rows * width <= length A)%nat ->
    (width * B_cols <= length B)%nat ->
    (A_rows + width + B_cols < fuel)%nat ->
    exists calls,
      Multiply fuel A_addr B_addr A B A_rows width B_cols = Done calls
      /\ Forall (fun c => length (call_total c) = 8%nat
                          /\ Forall total_range (call_total c)) calls.
Proof.
  intros fuel A_addr B_addr A B A_rows width B_cols Hw Hw0 Hc Ha Hb HA HB Hf.
  exists (Multiply_calls A B A_rows width B_cols).
  split; [apply Multiply_runs; assumption|].
  apply Multiply_calls_Forall. intros s r. cbn [call_total].
  rewrite row_chunks_columns. split.
  - rewrite length_map, length_seq. reflexivity.
  - apply Forall_forall. intros t Ht. apply in_map_iff in Ht.
    destruct Ht as [c [<- _]]. apply column_total_range.
Qed.

Lemma Multiply_totals_bounded_witness :
  exists calls,
    Multiply 200 0 0 example_row2 example_B 1 128 8 = Done calls
    /\ Forall (fun c => length (call_total c) = 8%nat
                        /\ Forall total_range (call_total c)) calls.
Proof.
  apply (Multiply_totals_bounded 200 0 0 example_row2 example_B 1 128 8);
    try reflexivity; apply Nat.leb_le; reflexivity.
Defined.

(** ** Exact totals over several chunks *)













(** ** Empty dimensions *)

Lemma strips_loop_no_rows (A B : list Z) (width B_cols fuel simd_width : nat) :
  (0 < fuel)%nat ->
  forall (k n s B0_col : nat),
    (k < n)%nat -> (8 * (s + k) = B_cols)%nat ->
    strips_loop A B 0 width B_cols n fuel simd_width B0_col (8 * s) = Done [].
Proof.
  intros Hf. induction k as [|k IH]; intros n s B0_col Hn Hk.
  - destruct n as [|n]; [lia|]. cbn [strips_loop].
    replace (8 * s =? B_cols)%nat with true
      by (symmetry; apply Nat.eqb_eq; lia).
    reflexivity.
  - destruct n as [|n]; [lia|]. cbn [strips_loop].
    destruct (Nat.eqb_spec (8 * s) B_cols) as [He|_]; [lia|].
    destruct fuel as [|fuel']; [lia|]. cbn [rows_loop Nat.ltb Nat.leb bind].
    replace (8 * s + 8)%nat with (8 * (S s))%nat by lia.
    rewrite (IH n (S s)) by lia. reflexivity.
Qed.

(** With no row of A or no column of B, and its assertions satisfied,
    Multiply completes without a single call of the callback and without
    reading either buffer, whatever they hold and whatever the width,
    zero included. *)
Theorem Multiply_empty_dimension :
  forall (fuel A_addr B_addr : nat) (A B : list Z) (A_rows width B_cols : nat),
    (width mod 64 = 0)%nat -> (B_cols mod 8 = 0)%nat ->
    (A_addr mod 64 = 0)%nat -> (B_addr mod 64 = 0)%nat ->
    (B_cols < fuel)%nat ->
    A_rows = 0%nat \/ B_cols = 0%nat ->
    Multiply fuel A_addr B_addr A B A_rows width B_cols = Done [].
Proof.
  intros fuel A_addr B_addr A B A_rows width B_cols Hw Hc Ha Hb Hf Hempty.
  unfold Multiply, sizeof_Integer. rewrite Hw, Hc, Ha, Hb.
  cbn [Nat.eqb assert bind].
  destruct Hempty as [-> | ->].
  - pose proof (Nat.Div0.div_exact B_cols 8) as [_ Hd]. specialize (Hd Hc).
    apply (strips_loop_no_rows A B width B_cols fuel (width / 64) ltac:(lia)
             (B_cols / 8) fuel 0 0); lia.
  - destruct fuel as [|fuel']; [lia|]. reflexivity.
Qed.

Lemma Multiply_empty_dimension_witness :
  Multiply 20 0 0 [] [] 0 0 16 = Done []
  /\ Multiply 20 0 0 [] [] 3 64 0 = Done [].
Proof.
  split.
  - apply (Multiply_empty_dimension 20 0 0 [] [] 0 0 16);
      try reflexivity; [apply Nat.leb_le; reflexivity | left; reflexivity].
  - apply (Multiply_empty_dimension 20 0 0 [] [] 3 64 0);
      try reflexivity; [apply Nat.leb_le; reflexivity | right; reflexivity].
Defined.

(** ** PrepareA, then Multiply *)



(** ** A completed run has read both operands to the end *)










(** ** The two quantizers *)

Lemma quantize8_clamps_quantize16 (mult x : float) :
  quantize8 mult x = Z.max (-127) (Z.min 127 (quantize16 mult x)).
Proof.
  unfold quantize8, quantize16, sat8, sat16.
  change (wrap32 (-127)) with (-127). lia.
Qed.

(** On the same floats and multiplier the 8-bit Quantize stores what the
    16-bit Quantize stores, clamped to [-127, 127]. *)
Theorem Quantize8_clamps_Quantize16 :
  forall (fuel input_addr : nat) (mem : list float) (mult : float) (size : nat),
    (size mod 16 = 0)%nat -> (input_addr mod 64 = 0)%nat ->
    (size <= length mem)%nat -> (size < fuel)%nat ->
    exists out16,
      AVX512_16bit.Quantize fuel input_addr mem mult size = Done out16
      /\ AVX512_8bit.Quantize fuel input_addr mem mult size
         = Done (map (fun v => Z.max (-127) (Z.min 127 v)) out16).
Proof.
  intros fuel input_addr mem mult size Hs Ha Hl Hf.
  exists (map (quantize16 mult) (firstn size mem)).
  split; [apply Quantize16_runs; assumption|].
  rewrite Quantize8_runs by assumption. f_equal.
  rewrite map_map. apply map_ext. intros x.
  apply quantize8_clamps_quantize16.
Qed.

Lemma Quantize8_clamps_Quantize16_witness :
  exists out16,
    AVX512_16bit.Quantize 40 0 example_floats (float_of_Z 1) 32 = Done out16
    /\ AVX512_8bit.Quantize 40 0 example_floats (float_of_Z 1) 32
       = Done (map (fun v => Z.max (-127) (Z.min 127 v)) out16).
Proof.
  apply (Quantize8_clamps_Quantize16 40 0 example_floats (float_of_Z 1) 32).
  - reflexivity.
  - reflexivity.
  - apply Nat.leb_le. reflexivity.
  - apply Nat.leb_le. reflexivity.
Defined.
